(** * Person-name heuristics of [name_server.py]

    A shallow embedding of the heuristic layer that [name_server.py] puts on
    top of the entity recognizer: the title dictionary, [preceding_word],
    [has_possessive], [is_likely_person], [expand_with_title] and the
    request handler [extract_names], followed by the properties of the
    written specification.

    Python strings are sequences of Unicode code points, and every offset the
    program handles counts code points; a string is therefore a list of code
    points, and an offset is an integer with Python's slice conventions. *)

From Stdlib Require Import List ZArith NArith Lia Bool Ascii String.
Import ListNotations.

Local Open Scope Z_scope.

(** ** Strings *)

Module Py.

(** One Unicode code point. *)
Definition char := N.

Definition str := list char.

(** An ASCII literal as a Python string. *)
Definition lit (s : string) : str :=
  List.map N_of_ascii (list_ascii_of_string s).

Definition len (s : str) : Z := Z.of_nat (List.length s).

Definition char_eqb (a b : char) : bool := N.eqb a b.

Fixpoint str_eqb (a b : str) : bool :=
  match a, b with
  | [], [] => true
  | x :: a', y :: b' => char_eqb x y && str_eqb a' b'
  | _, _ => false
  end.

(** [str.isspace] on one code point, which is also what [\s] matches in a
    [str] pattern: the code points of [_PyUnicode_IsWhitespace]. *)
Definition isspace (c : char) : bool :=
  ((9 <=? c) && (c <=? 13) || (28 <=? c) && (c <=? 32)
   || (c =? 133) || (c =? 160) || (c =? 5760)
   || (8192 <=? c) && (c <=? 8202)
   || (c =? 8232) || (c =? 8233) || (c =? 8239) || (c =? 8287)
   || (c =? 12288))%N.

Definition nonspace (c : char) : bool := negb (isspace c).

(** [s.lstrip(chars)] and [s.rstrip(chars)], the set of characters given as
    a predicate. *)
Fixpoint lstrip_by (f : char -> bool) (s : str) : str :=
  match s with
  | [] => []
  | c :: r => if f c then lstrip_by f r else s
  end.

Fixpoint rstrip_by (f : char -> bool) (s : str) : str :=
  match s with
  | [] => []
  | c :: r =>
      match rstrip_by f r with
      | [] => if f c then [] else [c]
      | r' => c :: r'
      end
  end.

Definition rstrip (s : str) : str := rstrip_by isspace s.
Definition lstrip (s : str) : str := lstrip_by isspace s.
Definition strip (s : str) : str := rstrip (lstrip s).

(** A slice bound brought into [0 .. len]: a negative bound counts from the
    end, and a bound outside the string is clipped. *)
Definition clip (n i : Z) : Z :=
  if i <? 0 then Z.max 0 (n + i) else Z.min i n.

(** [s[:stop]], [s[start:]] and [s[start:stop]]. *)
Definition slice_to (s : str) (stop : Z) : str :=
  firstn (Z.to_nat (clip (len s) stop)) s.

Definition slice_from (s : str) (start : Z) : str :=
  skipn (Z.to_nat (clip (len s) start)) s.

Definition slice (s : str) (start stop : Z) : str :=
  let a := clip (len s) start in
  let b := clip (len s) stop in
  firstn (Z.to_nat (b - a)) (skipn (Z.to_nat a) s).

(** [s.startswith(p)]. *)
Fixpoint startswith (s p : str) : bool :=
  match p, s with
  | [], _ => true
  | x :: p', y :: s' => char_eqb y x && startswith s' p'
  | _ :: _, [] => false
  end.

(** [s.rfind(p)]: the highest index at which [p] occurs in [s], or [-1].
    [rfind_from s p i] searches [s] seen as the part of a longer string that
    begins at index [i]. *)
Fixpoint rfind_from (s p : str) (i : Z) : Z :=
  match s with
  | [] => if startswith [] p then i else -1
  | _ :: r =>
      let k := rfind_from r p (i + 1) in
      if k =? -1 then (if startswith s p then i else -1) else k
  end.

Definition rfind (s p : str) : Z := rfind_from s p 0.

(** [x in S] for a set of strings. *)
Definition mem (x : str) (S : list str) : bool := existsb (str_eqb x) S.

End Py.

Import Py.

(** ** The three regular-expression uses

    Without [re.MULTILINE], [$] matches at the end of the string and also
    just before a line feed that is the last character. *)

Module Re.

Definition LF : char := 10%N.

Definition at_dollar (rest : str) : bool :=
  match rest with
  | [] => true
  | [c] => char_eqb c LF
  | _ => false
  end.

(** [(\S+)$] anchored at the head of [s], the group returned. The repetition
    is greedy: it first takes one more character, and gives it back when the
    rest does not match. *)
Fixpoint match_word (s : str) : option str :=
  match s with
  | [] => None
  | c :: r =>
      if isspace c then None
      else match match_word r with
           | Some w => Some (c :: w)
           | None => if at_dollar r then Some [c] else None
           end
  end.

(** [re.search(r'(\S+)$', s)]: the match at the leftmost position that has
    one; [m.group(1)] where there is a match. *)
Fixpoint search_word (s : str) : option str :=
  match match_word s with
  | Some w => Some w
  | None =>
      match s with
      | [] => None
      | _ :: r => search_word r
      end
  end.

(** The class ['’]. *)
Definition is_quote (c : char) : bool := char_eqb c 39%N || char_eqb c 8217%N.

Definition LOWER_S : char := 115%N.

(** [['’]s$] anchored at the head of [s]. *)
Definition match_possessive (s : str) : bool :=
  match s with
  | q :: c :: rest => is_quote q && char_eqb c LOWER_S && at_dollar rest
  | _ => false
  end.

(** [re.search(r"['’]s$", s)] as a truth value. *)
Fixpoint search_possessive (s : str) : bool :=
  match_possessive s ||
  match s with
  | [] => false
  | _ :: r => search_possessive r
  end.

(** [re.sub(r"['’]s$", "", s)]: scanning from the left, every match is
    dropped and the scan goes on after it; other characters are copied. *)
Fixpoint sub_possessive (s : str) : str :=
  match s with
  | [] => []
  | c :: r =>
      if match_possessive s
      then match r with
           | [] => []
           | _ :: r' => sub_possessive r'
           end
      else c :: sub_possessive r
  end.

End Re.

Import Re.

(** ** The heuristics *)

(** [TITLES]. *)
Definition TITLES : list str :=
  List.map lit
    [ "mr"; "mrs"; "ms"; "dr"; "prof"; "sir"; "dame"; "lord"; "lady";
      "rev"; "sgt"; "cpl"; "lt"; "capt"; "maj"; "col"; "gen"; "cmdr";
      "supt"; "det"; "insp"; "judge"; "justice"; "baron"; "baroness";
      "prince"; "princess"; "king"; "queen"; "president"; "senator";
      "governor"; "mayor"; "councillor"; "minister"; "secretary";
      "cardinal"; "archbishop"; "bishop"; "father"; "sister"; "brother";
      "sheikh"; "imam"; "rabbi"; "ayatollah" ]%string.

(** The characters of [".,;:"]. *)
Definition is_punct (c : char) : bool :=
  char_eqb c 46%N || char_eqb c 44%N || char_eqb c 59%N || char_eqb c 58%N.

(** [preceding_word(text, start)]. *)
Definition preceding_word (text : str) (start : Z) : str :=
  let before := rstrip (slice_to text start) in
  match search_word before with
  | Some m => rstrip_by is_punct m
  | None => []
  end.

(** [has_possessive(ent_text, text, end)]. *)
Definition has_possessive (ent_text text : str) (end_ : Z) : bool :=
  if search_possessive ent_text then true
  else
    let rest := slice_from text end_ in
    startswith rest [8217%N; LOWER_S] || startswith rest [39%N; LOWER_S].

(** An entity span of the recognizer: [ent.text], [ent.label_],
    [ent.start_char] and [ent.end_char]. *)
Record Entity : Type := mkEntity {
  text_ : str;
  label_ : str;
  start_char : Z;
  end_char : Z
}.

Definition PERSON : str := lit "PERSON".

(** The labels for which a possessive is no sign of a person. *)
Definition NON_PERSON_LABELS : list str :=
  List.map lit ["ORG"; "GPE"; "FAC"; "NORP"; "EVENT"]%string.

Section Heuristics.

(** [str.lower] follows the Unicode case tables of the Python runtime, which
    are no part of the program; the heuristics are stated over any such
    function. *)
Variable lower : str -> str.

(** [is_likely_person(ent, text)]. *)
Definition is_likely_person (ent : Entity) (text : str) : bool :=
  if str_eqb (label_ ent) PERSON then true
  else
    let name := strip (text_ ent) in
    match name with
    | [] => false
    | _ :: _ =>
        let prev := lower (preceding_word text (start_char ent)) in
        if mem prev TITLES then true
        else if has_possessive (text_ ent) text (end_char ent)
                && negb (mem (label_ ent) NON_PERSON_LABELS)
        then true
        else false
    end.

(** [expand_with_title(text, start)]. *)
Definition expand_with_title (text : str) (start : Z) : Z :=
  let prev := preceding_word text start in
  if mem (lower prev) TITLES then
    let before := rstrip (slice_to text start) in
    rfind before prev
  else start.

End Heuristics.

(** ** The request handler *)

(** One entry of ["positions"]. *)
Record Position : Type := mkPosition {
  p_start : Z;
  p_end : Z
}.

(** One entry of ["names"]. *)
Record PersonRecord : Type := mkPersonRecord {
  name : str;
  positions : list Position
}.

(** [by_name]: a Python dict keeps its keys in the order they were first
    inserted, so it is a list of bindings with no key twice. *)
Module Dict.

Definition t := list (str * PersonRecord).

Definition empty : t := [].

(** [k in d]. *)
Definition contains (d : t) (k : str) : bool :=
  existsb (fun b => str_eqb k (fst b)) d.

(** [d[k] = v]: the value of an existing key is replaced where it stands, a
    new key goes to the end. *)
Fixpoint set (d : t) (k : str) (v : PersonRecord) : t :=
  match d with
  | [] => [(k, v)]
  | (k', v') :: r => if str_eqb k k' then (k', v) :: r else (k', v') :: set r k v
  end.

(** [d[k]] changed in place by [f]. The handler only does so right after it
    made sure that [k] is a key; a missing key leaves the dict as it is. *)
Fixpoint modify (d : t) (k : str) (f : PersonRecord -> PersonRecord) : t :=
  match d with
  | [] => []
  | (k', v') :: r =>
      if str_eqb k k' then (k', f v') :: r else (k', v') :: modify r k f
  end.

(** [list(d.values())]. *)
Definition values (d : t) : list PersonRecord := List.map snd d.

Definition keys (d : t) : list str := List.map fst d.

End Dict.

(** The handler runs the recognizer through one call, [nlp(text)]; what it
    does is a value of [Request], either a finished response or a call of the
    recognizer with the rest of the handler waiting for the entities. *)
Inductive Request (A : Type) : Type :=
| Respond (a : A)
| Recognize (text : str) (k : list Entity -> Request A).

Arguments Respond {A} a.
Arguments Recognize {A} text k.

(** A request served by a recognizer that may keep state of its own between
    calls; the entities of the document and the recognizer's next state. *)
Fixpoint serve {S A : Type} (nlp : S -> str -> list Entity * S)
  (r : Request A) (s : S) : A * S :=
  match r with
  | Respond a => (a, s)
  | Recognize text k => let '(ents, s') := nlp s text in serve nlp (k ents) s'
  end.

(** The texts the recognizer was called with, in order. *)
Fixpoint invocations {A : Type} (nlp : str -> list Entity) (r : Request A)
  : list str :=
  match r with
  | Respond _ => []
  | Recognize text k => text :: invocations nlp (k (nlp text))
  end.

(** A request served by a recognizer that is a function of the text. *)
Definition respond_with {A : Type} (nlp : str -> list Entity) (r : Request A) : A :=
  fst (serve (fun (_ : unit) text => (nlp text, tt)) r tt).

Section Handler.

Variable lower : str -> str.

(** [re.sub(r"['’]s$", "", name).strip()]. *)
Definition strip_possessive (nm : str) : str := strip (sub_possessive nm).

(** The body of the loop up to the two [continue]s: the name and the span of
    an entity that is kept, [None] where the loop goes on to the next
    entity. *)
Definition candidate (text : str) (ent : Entity) : option (str * Position) :=
  if negb (is_likely_person lower ent text) then None
  else
    let start := expand_with_title lower text (start_char ent) in
    let end_ := end_char ent in
    let nm := strip (slice text start end_) in
    let nm := strip_possessive nm in
    match nm with
    | [] => None
    | _ :: _ => Some (nm, mkPosition start end_)
    end.

(** The last three lines of the loop body. *)
Definition record_occurrence (by_name : Dict.t) (nm : str) (p : Position) : Dict.t :=
  let by_name :=
    if negb (Dict.contains by_name nm)
    then Dict.set by_name nm (mkPersonRecord nm [])
    else by_name in
  Dict.modify by_name nm
    (fun r => mkPersonRecord (name r) (positions r ++ [p])).

Definition loop_body (text : str) (by_name : Dict.t) (ent : Entity) : Dict.t :=
  match candidate text ent with
  | None => by_name
  | Some (nm, p) => record_occurrence by_name nm p
  end.

(** The loop over [doc.ents] and the list that is returned. *)
Definition aggregate (text : str) (ents : list Entity) : list PersonRecord :=
  Dict.values (fold_left (loop_body text) ents Dict.empty).

(** [extract_names()] for the request text [text]; the response is the list
    under ["names"]. *)
Definition extract_names (text : str) : Request (list PersonRecord) :=
  match strip text with
  | [] => Respond []
  | _ :: _ => Recognize text (fun ents => Respond (aggregate text ents))
  end.

End Handler.

(** [str.lower] on texts of ASCII letters: the instance at which the
    heuristics are run on examples. *)
Definition ascii_lower (s : str) : str :=
  List.map (fun c => if ((65 <=? c) && (c <=? 90))%N then (c + 32)%N else c) s.


(** The code point of [’]. *)
Definition RSQUO : char := 8217%N.

(** ** Vocabulary of the specification *)

(** [p] occurs in [s] at index [i]. *)
Definition occurs_at (s p : str) (i : Z) : Prop :=
  exists pre post, s = pre ++ p ++ post /\ len pre = i.

Definition rightmost_occurrence (s p : str) (i : Z) : Prop :=
  occurs_at s p i /\ forall j, occurs_at s p j -> j <= i.

Fixpoint take_while (f : char -> bool) (s : str) : str :=
  match s with
  | [] => []
  | c :: r => if f c then c :: take_while f r else []
  end.

(** The longest run of non-whitespace characters that ends [s]. *)
Definition trailing_token (s : str) : str :=
  rev (take_while nonspace (rev s)).

(** The word before [start]: the token that ends the trimmed prefix, without
    its trailing [.,;:]. *)
Definition word_before (text : str) (start : Z) : str :=
  rstrip_by is_punct (trailing_token (rstrip (slice_to text start))).

(** The index at which the token next to [start] begins. *)
Definition adjacent_token_start (text : str) (start : Z) : Z :=
  let before := rstrip (slice_to text start) in
  len before - len (trailing_token before).


(** The strings of [l] in the order in which each is seen first. *)
Fixpoint first_seen (l : list str) : list str :=
  match l with
  | [] => []
  | x :: r => x :: filter (fun y => negb (str_eqb y x)) (first_seen r)
  end.

(** The positions recorded under the name [k] in a list of names with their
    positions, in the order of the list. *)
Definition occurrences (k : str) (ms : list (str * Position)) : list Position :=
  List.map snd (filter (fun m => str_eqb (fst m) k) ms).

(** The names and positions of the entities that the loop keeps, in the
    order of the recognizer. *)
Definition mentions (lower : str -> str) (text : str) (ents : list Entity)
  : list (str * Position) :=
  flat_map (fun e => match candidate lower text e with
                     | Some m => [m]
                     | None => []
                     end) ents.

(** The contract of the recognizer: a span lies within the text and is not
    empty. *)
Definition well_formed (text : str) (e : Entity) : Prop :=
  0 <= start_char e /\ start_char e < end_char e /\ end_char e <= len text.

(** A string ends with ['s] or [’s]. *)
Definition ends_with_possessive (s : str) : Prop :=
  exists body q, s = body ++ [q; LOWER_S] /\ is_quote q = true.

(** The dict that holds, for each name of [ms] in first-seen order, the
    record of that name with its positions in the order of [ms]. *)
Definition grouped (ms : list (str * Position)) : Dict.t :=
  List.map (fun k => (k, mkPersonRecord k (occurrences k ms)))
    (first_seen (List.map fst ms)).

(** The mentions kept for one request: none where the text is blank, for
    the recognizer is not asked then. *)
Definition kept (lower : str -> str) (nlp : str -> list Entity) (text : str)
  : list (str * Position) :=
  match strip text with
  | [] => []
  | _ :: _ => mentions lower text (nlp text)
  end.

(** The text after [end_] begins with ['s] or [’s]. *)
Definition followed_by_possessive (text : str) (end_ : Z) : Prop :=
  exists q rest, slice_from text end_ = q :: LOWER_S :: rest /\ is_quote q = true.

(** The classifier as the specification words it. *)
Definition described_person (lower : str -> str) (ent : Entity) (text : str) : Prop :=
  label_ ent = PERSON \/
  (label_ ent <> PERSON /\ strip (text_ ent) <> [] /\
   (mem (lower (word_before text (start_char ent))) TITLES = true \/
    ((ends_with_possessive (text_ ent) \/ followed_by_possessive text (end_char ent)) /\
     ~ In (label_ ent) NON_PERSON_LABELS))).

(** A recognizer with state, for the examples: it counts its calls and
    finds one entity in every text. *)
Definition counting_nlp (calls : nat) (text : str) : list Entity * nat :=
  ([mkEntity (lit "John Smith") PERSON 0 10], Datatypes.S calls).

(** A recognizer for the examples: the entity of [Prince Philip died.]. *)
Definition sample_nlp (text : str) : list Entity :=
  [mkEntity (lit "Philip") (lit "GPE") 7 13].

(** ** Further vocabulary *)

(** [a] is a contiguous part of [b]. *)
Definition part_of (a b : str) : Prop :=
  exists pre post, b = pre ++ a ++ post.

(** The number of positions in a list of records. *)
Definition count_positions (rs : list PersonRecord) : nat :=
  list_sum (List.map (fun r => List.length (positions r)) rs).

(** The texts in which the program finds the possessive pattern: those that
    end with the marker, and those that end with the marker and one line
    feed. *)
Definition possessive_text (s : str) : Prop :=
  ends_with_possessive s \/
  exists s', s = s' ++ [LF] /\ ends_with_possessive s'.

(** A string with no whitespace at either end. *)
Definition trimmed (s : str) : Prop :=
  (forall c r, s = c :: r -> isspace c = false) /\
  (forall l c, s = l ++ [c] -> isspace c = false).

(** ** The body of the request

    [request.get_json()] hands the handler the parsed body. The handler
    tells three kinds of values apart: a string has [strip], an object (a
    dict, each key once) has [get], and every other value (null, a boolean,
    a number, an array) has neither. *)
#[warnings="-register-all"] Inductive Json : Type :=
| JString (s : str)
| JObject (fields : list (str * Json))
| JOther.

(** [d.get(k, default)]. *)
Definition dict_get (fields : list (str * Json)) (k : str) (default : Json) : Json :=
  match find (fun b => str_eqb k (fst b)) fields with
  | Some b => snd b
  | None => default
  end.

(** How the handler ends: with the list under ["names"], or with the
    [AttributeError] of a value that lacks the method called on it. *)
Inductive Outcome : Type :=
| Names (rs : list PersonRecord)
| AttributeError.

Fixpoint map_request {A B : Type} (f : A -> B) (r : Request A) : Request B :=
  match r with
  | Respond a => Respond (f a)
  | Recognize text k => Recognize text (fun ents => map_request f (k ents))
  end.

(** [extract_names()] from the parsed body on: [data.get("text", "")],
    then [text.strip()] and the rest of the handler. *)
Definition extract_names_body (lower : str -> str) (data : Json) : Request Outcome :=
  match data with
  | JObject fields =>
      match dict_get fields (lit "text") (JString []) with
      | JString text => map_request Names (extract_names lower text)
      | _ => Respond AttributeError
      end
  | _ => Respond AttributeError
  end.

(** The classifier as the specification words it, the possessive of the
    entity text read as the program finds it: at the end of the text, or
    before a line feed that ends the text. *)
Definition described_person_amended (lower : str -> str) (ent : Entity) (text : str) : Prop :=
  label_ ent = PERSON \/
  (label_ ent <> PERSON /\ strip (text_ ent) <> [] /\
   (mem (lower (word_before text (start_char ent))) TITLES = true \/
    ((possessive_text (text_ ent) \/ followed_by_possessive text (end_char ent)) /\
     ~ In (label_ ent) NON_PERSON_LABELS))).

(** ** The title set in any order

    [TITLES] is a Python set. The order in which a set holds its strings
    follows their hashes, which the interpreter salts anew at every start,
    so that it differs from one run of the server to the next. The
    heuristics and the handler are written here over the titles in a given
    order; with the titles in the order of the source text they are the
    definitions above. *)
Section TitleSet.

Variable titles : list str.
Variable lower : str -> str.

Definition is_likely_person_with (ent : Entity) (text : str) : bool :=
  if str_eqb (label_ ent) PERSON then true
  else
    let name := strip (text_ ent) in
    match name with
    | [] => false
    | _ :: _ =>
        let prev := lower (preceding_word text (start_char ent)) in
        if mem prev titles then true
        else if has_possessive (text_ ent) text (end_char ent)
                && negb (mem (label_ ent) NON_PERSON_LABELS)
        then true
        else false
    end.

Definition expand_with_title_with (text : str) (start : Z) : Z :=
  let prev := preceding_word text start in
  if mem (lower prev) titles then
    let before := rstrip (slice_to text start) in
    rfind before prev
  else start.

Definition candidate_with (text : str) (ent : Entity) : option (str * Position) :=
  if negb (is_likely_person_with ent text) then None
  else
    let start := expand_with_title_with text (start_char ent) in
    let end_ := end_char ent in
    let nm := strip (slice text start end_) in
    let nm := strip_possessive nm in
    match nm with
    | [] => None
    | _ :: _ => Some (nm, mkPosition start end_)
    end.

Definition loop_body_with (text : str) (by_name : Dict.t) (ent : Entity) : Dict.t :=
  match candidate_with text ent with
  | None => by_name
  | Some (nm, p) => record_occurrence by_name nm p
  end.

Definition aggregate_with (text : str) (ents : list Entity) : list PersonRecord :=
  Dict.values (fold_left (loop_body_with text) ents Dict.empty).

Definition extract_names_with (text : str) : Request (list PersonRecord) :=
  match strip text with
  | [] => Respond []
  | _ :: _ => Recognize text (fun ents => Respond (aggregate_with text ents))
  end.

End TitleSet.
(** ** The examples of the specification *)

Example preceding_word_prince :
  preceding_word (lit "Prince Philip died.") 7 = lit "Prince".
Proof. reflexivity. Qed.

Example expand_prince :
  expand_with_title ascii_lower (lit "Prince Philip died.") 7 = 0.
Proof. reflexivity. Qed.

Example expand_dr_dot :
  expand_with_title ascii_lower (lit "Dr met Dr. Who") 11 = 7.
Proof. reflexivity. Qed.


Example extract_prince :
  respond_with
    (fun _ => [mkEntity (lit "Philip") (lit "GPE") 7 13])
    (extract_names ascii_lower (lit "Prince Philip died."))
  = [mkPersonRecord (lit "Prince Philip") [mkPosition 0 13]].
Proof. reflexivity. Qed.

Example extract_possessive :
  respond_with
    (fun _ => [mkEntity (lit "Mountbatten-Windsor" ++ [RSQUO; LOWER_S]) (lit "PRODUCT") 0 21])
    (extract_names ascii_lower (lit "Mountbatten-Windsor" ++ [RSQUO; LOWER_S] ++ lit " legacy"))
  = [mkPersonRecord (lit "Mountbatten-Windsor") [mkPosition 0 21]].
Proof. reflexivity. Qed.

Example extract_twice :
  respond_with
    (fun _ => [mkEntity (lit "John Smith") PERSON 0 10;
               mkEntity (lit "Ann") PERSON 15 18;
               mkEntity (lit "John Smith") PERSON 23 33])
    (extract_names ascii_lower (lit "John Smith met Ann and John Smith"))
  = [mkPersonRecord (lit "John Smith") [mkPosition 0 10; mkPosition 23 33];
     mkPersonRecord (lit "Ann") [mkPosition 15 18]].
Proof. reflexivity. Qed.

Example extract_org_excluded :
  respond_with
    (fun _ => [mkEntity (lit "Acme") (lit "ORG") 4 8])
    (extract_names ascii_lower (lit "The Acme plant"))
  = [].
Proof. reflexivity. Qed.


Example extract_blank_person :
  respond_with
    (fun _ => [mkEntity [LF] PERSON 3 4])
    (extract_names ascii_lower (lit "Ann" ++ [LF] ++ lit "left"))
  = [].
Proof. reflexivity. Qed.

Example extract_blank_text :
  invocations sample_nlp (extract_names ascii_lower (lit "  " ++ [LF])) = [].
Proof. reflexivity. Qed.
(** ** Facts about the string operations *)

Section StringFacts.

Lemma char_eqb_eq (a b : char) : char_eqb a b = true <-> a = b.
Proof. unfold char_eqb. apply N.eqb_eq. Qed.

Lemma str_eqb_eq (a b : str) : str_eqb a b = true <-> a = b.
Proof.
  revert b. induction a as [|x a IH]; intros [|y b]; simpl; split;
    try congruence; try reflexivity.
  - intros H. apply andb_true_iff in H. destruct H as [H1 H2].
    apply char_eqb_eq in H1. apply IH in H2. congruence.
  - intros H. injection H as -> ->. apply andb_true_iff. split.
    + now apply char_eqb_eq.
    + now apply IH.
Qed.

Lemma str_eqb_refl (a : str) : str_eqb a a = true.
Proof. now apply str_eqb_eq. Qed.

Lemma str_eqb_neq (a b : str) : str_eqb a b = false <-> a <> b.
Proof.
  split.
  - intros H E. apply str_eqb_eq in E. congruence.
  - intros H. destruct (str_eqb a b) eqn:E; [|reflexivity].
    apply str_eqb_eq in E. contradiction.
Qed.

Variable f : char -> bool.

Lemma rstrip_by_split (s : str) :
  exists t, s = rstrip_by f s ++ t /\ forallb f t = true.
Proof.
  induction s as [|c r [t [E Ht]]]; simpl.
  - exists []. split; reflexivity.
  - destruct (rstrip_by f r) as [|d r'] eqn:R.
    + simpl in E. subst t. destruct (f c) eqn:Fc.
      * exists (c :: r). split; [reflexivity|]. simpl. now rewrite Fc.
      * exists r. split; [reflexivity| assumption].
    + exists t. split; [|assumption]. simpl. now f_equal.
Qed.

Lemma rstrip_by_last (s l : str) (c : char) :
  rstrip_by f s = l ++ [c] -> f c = false.
Proof.
  revert l. induction s as [|d r IH]; intros l; simpl.
  - destruct l; discriminate.
  - destruct (rstrip_by f r) as [|e r'] eqn:R.
    + destruct (f d) eqn:Fd.
      * destruct l; discriminate.
      * destruct l as [|x [|y l]]; try discriminate.
        intros H. injection H as <-. assumption.
    + destruct l as [|x l].
      * discriminate.
      * intros H. injection H as _ H. now apply (IH l).
Qed.

Lemma rstrip_by_length (s : str) :
  (List.length (rstrip_by f s) <= List.length s)%nat.
Proof.
  destruct (rstrip_by_split s) as [t [E _]].
  rewrite E at 2. rewrite length_app. lia.
Qed.

Lemma rstrip_by_all (s : str) :
  forallb f s = true <-> rstrip_by f s = [].
Proof.
  induction s as [|c r IH]; simpl.
  - split; reflexivity.
  - destruct (rstrip_by f r) as [|e r'] eqn:R.
    + destruct (f c); simpl.
      * split; [reflexivity|]. intros _. now apply IH.
      * split; discriminate.
    + split; [|discriminate]. intros H. apply andb_true_iff in H.
      destruct H as [_ H]. apply IH in H. discriminate.
Qed.

Lemma lstrip_by_split (s : str) :
  exists t, s = t ++ lstrip_by f s /\ forallb f t = true.
Proof.
  induction s as [|c r [t [E Ht]]]; simpl.
  - exists []. split; reflexivity.
  - destruct (f c) eqn:Fc.
    + exists (c :: t). split; simpl; [now f_equal | now rewrite Fc].
    + exists []. split; reflexivity.
Qed.

Lemma lstrip_by_all (s : str) :
  forallb f s = true <-> lstrip_by f s = [].
Proof.
  induction s as [|c r IH]; simpl.
  - split; reflexivity.
  - destruct (f c); simpl; [assumption|]. split; discriminate.
Qed.

Lemma lstrip_by_forallb (s : str) :
  forallb f (lstrip_by f s) = true -> forallb f s = true.
Proof.
  induction s as [|c r IH]; simpl; [reflexivity|].
  destruct (f c) eqn:Fc; simpl; [assumption|]. now rewrite Fc.
Qed.

End StringFacts.

Lemma strip_blank (s : str) : forallb isspace s = true <-> strip s = [].
Proof.
  unfold strip, rstrip, lstrip. split.
  - intros H. apply rstrip_by_all. apply lstrip_by_all in H. now rewrite H.
  - intros H. apply rstrip_by_all in H. now apply lstrip_by_forallb.
Qed.

Lemma strip_last (s l : str) (c : char) : strip s = l ++ [c] -> isspace c = false.
Proof. unfold strip, rstrip. apply rstrip_by_last. Qed.

Lemma len_nonneg (s : str) : 0 <= len s.
Proof. unfold len. lia. Qed.

Lemma clip_range (n i : Z) : 0 <= n -> 0 <= clip n i <= n.
Proof. unfold clip. destruct (i <? 0) eqn:E; lia. Qed.

Lemma clip_id (n i : Z) : 0 <= i <= n -> clip n i = i.
Proof. unfold clip. destruct (i <? 0) eqn:E; lia. Qed.

Lemma slice_to_prefix (s : str) (i : Z) :
  exists t, s = slice_to s i ++ t /\ len (slice_to s i) = clip (len s) i.
Proof.
  unfold slice_to. pose proof (clip_range (len s) i (len_nonneg s)) as C.
  exists (skipn (Z.to_nat (clip (len s) i)) s). split.
  - symmetry. apply firstn_skipn.
  - unfold len in *. rewrite length_firstn. lia.
Qed.

(** *** [startswith] and [rfind] *)

Arguments startswith : simpl nomatch.

Lemma startswith_iff (s p : str) :
  startswith s p = true <-> exists post, s = p ++ post.
Proof.
  revert s. induction p as [|x p IH]; intros s.
  - split; [intros _; now exists s | intros _; now destruct s].
  - destruct s as [|y s]; simpl.
    + split; [discriminate | intros [post H]; discriminate].
    + rewrite andb_true_iff, char_eqb_eq, IH. split.
      * intros [-> [post ->]]. now exists post.
      * intros [post H]. injection H as -> ->. split; [reflexivity | now exists post].
Qed.

Lemma rfind_from_floor (s p : str) (i : Z) :
  0 <= i -> rfind_from s p i = -1 \/ i <= rfind_from s p i.
Proof.
  revert i. induction s as [|c r IH]; intros i Hi; simpl.
  - destruct (startswith [] p); [right; lia | now left].
  - destruct (IH (i + 1) ltac:(lia)) as [E | E].
    + rewrite E. simpl. destruct (startswith (c :: r) p); [right; lia | now left].
    + destruct (rfind_from r p (i + 1) =? -1) eqn:K; [|right; lia].
      apply Z.eqb_eq in K. lia.
Qed.

Lemma rfind_from_upper (s p pre post : str) (i : Z) :
  0 <= i -> s = pre ++ p ++ post -> i + len pre <= rfind_from s p i.
Proof.
  revert i pre. induction s as [|c r IH]; intros i pre Hi E; simpl.
  - destruct pre; [|discriminate]. destruct p; [|discriminate].
    simpl. unfold len. simpl. lia.
  - destruct pre as [|d pre].
    + assert (S : startswith (c :: r) p = true)
        by (apply startswith_iff; now exists post).
      rewrite S. unfold len; simpl.
      destruct (rfind_from_floor r p (i + 1) ltac:(lia)) as [K | K].
      * rewrite K. simpl. lia.
      * destruct (rfind_from r p (i + 1) =? -1) eqn:K'; lia.
    + injection E as _ E.
      pose proof (IH (i + 1) pre ltac:(lia) E) as B.
      unfold len in *. simpl List.length.
      destruct (rfind_from r p (i + 1) =? -1) eqn:K'.
      * apply Z.eqb_eq in K'. lia.
      * lia.
Qed.

Lemma rfind_from_found (s p : str) (i : Z) :
  0 <= i -> rfind_from s p i <> -1 ->
  exists pre post, s = pre ++ p ++ post /\ rfind_from s p i = i + len pre.
Proof.
  revert i. induction s as [|c r IH]; intros i Hi; simpl.
  - destruct p as [|x p]; simpl; [|congruence].
    intros _. exists [], []. split; [reflexivity|]. unfold len; simpl; lia.
  - destruct (rfind_from r p (i + 1) =? -1) eqn:K.
    + destruct (startswith (c :: r) p) eqn:S; [|congruence].
      intros _. apply startswith_iff in S. destruct S as [post E].
      exists [], post. split; [assumption|]. unfold len; simpl; lia.
    + apply Z.eqb_neq in K. intros _.
      destruct (IH (i + 1) ltac:(lia) K) as [pre [post [E R]]].
      exists (c :: pre), post. split.
      * simpl. now f_equal.
      * rewrite R. unfold len. simpl List.length. lia.
Qed.

(** [rfind] returns the rightmost occurrence. *)
Lemma rfind_rightmost (s p pre post : str) :
  s = pre ++ p ++ post ->
  (forall pre' post', s = pre' ++ p ++ post' -> len pre' <= len pre) ->
  rfind s p = len pre.
Proof.
  intros E M. unfold rfind.
  pose proof (rfind_from_upper s p pre post 0 ltac:(lia) E) as U.
  pose proof (len_nonneg pre) as P.
  destruct (rfind_from_found s p 0 ltac:(lia) ltac:(lia))
    as [pre' [post' [E' R]]].
  pose proof (M _ _ E'). lia.
Qed.

(** Where [p] occurs in [s], [rfind] returns an index of [s]. *)
Lemma rfind_bounds (s p pre post : str) :
  s = pre ++ p ++ post -> 0 <= rfind s p <= len s.
Proof.
  intros E. unfold rfind.
  pose proof (rfind_from_upper s p pre post 0 ltac:(lia) E) as U.
  pose proof (len_nonneg pre) as P.
  destruct (rfind_from_found s p 0 ltac:(lia) ltac:(lia))
    as [pre' [post' [E' R]]].
  rewrite R. split; [lia|]. rewrite E'. unfold len.
  rewrite !length_app. lia.
Qed.

(** *** The word search *)

Lemma match_word_token (w : str) :
  w <> [] -> forallb nonspace w = true -> match_word w = Some w.
Proof.
  induction w as [|c w IH]; [congruence|]. intros _ H. simpl in *.
  apply andb_true_iff in H. destruct H as [Hc Hw].
  unfold nonspace in Hc. apply negb_true_iff in Hc. rewrite Hc.
  destruct w as [|d w]; [reflexivity|].
  rewrite IH; [reflexivity | discriminate | assumption].
Qed.

Lemma at_dollar_long (r : str) :
  (2 <= List.length r)%nat -> at_dollar r = false.
Proof. destruct r as [|a [|b r]]; simpl; intros H; try lia; reflexivity. Qed.

Lemma match_word_blocked (x y : str) (c : char) :
  forallb nonspace x = true -> isspace c = true -> y <> [] ->
  match_word (x ++ c :: y) = None.
Proof.
  intros Hx Hc Hy. induction x as [|a x IH]; simpl.
  - now rewrite Hc.
  - simpl in Hx. apply andb_true_iff in Hx. destruct Hx as [Ha Hx].
    unfold nonspace in Ha. apply negb_true_iff in Ha. rewrite Ha.
    rewrite (IH Hx). rewrite at_dollar_long; [reflexivity|].
    rewrite length_app. destruct y; [congruence|]. simpl. lia.
Qed.

Lemma first_space (s : str) :
  forallb nonspace s = false ->
  exists x c y, s = x ++ c :: y /\ forallb nonspace x = true /\ isspace c = true.
Proof.
  induction s as [|a s IH]; simpl; [discriminate|].
  destruct (nonspace a) eqn:A; simpl.
  - intros H. destruct (IH H) as [x [c [y [E [Hx Hc]]]]].
    exists (a :: x), c, y. repeat split.
    + simpl. now f_equal.
    + simpl. now rewrite A.
    + assumption.
  - intros _. exists [], a, s. repeat split.
    unfold nonspace in A. now apply negb_false_iff in A.
Qed.

Lemma search_word_here (s w : str) :
  match_word s = Some w -> search_word s = Some w.
Proof. destruct s; cbn [search_word]; now intros ->. Qed.

Lemma search_word_next (a : char) (s : str) :
  match_word (a :: s) = None -> search_word (a :: s) = search_word s.
Proof. cbn [search_word]. now intros ->. Qed.

Lemma search_word_token (pre w : str) :
  w <> [] -> forallb nonspace w = true ->
  (pre = [] \/ exists l c, pre = l ++ [c] /\ isspace c = true) ->
  search_word (pre ++ w) = Some w.
Proof.
  intros Hw Hn. induction pre as [|a pre IH]; intros Hp.
  - apply search_word_here. now apply match_word_token.
  - destruct Hp as [Hp | [l [c [E Hc]]]]; [discriminate|].
    assert (B : forallb nonspace (a :: pre) = false).
    { rewrite E. rewrite forallb_app. simpl. unfold nonspace at 2.
      rewrite Hc. simpl. now rewrite andb_false_r. }
    destruct (first_space _ B) as [x [d [y [E' [Hx Hd]]]]].
    assert (N : match_word ((a :: pre) ++ w) = None).
    { rewrite E', <- app_assoc. simpl.
      apply match_word_blocked; try assumption.
      destruct y; [assumption | discriminate]. }
    simpl app in *. rewrite (search_word_next _ _ N).
    apply IH. destruct l as [|b l].
    + left. simpl in E. injection E as _ E. assumption.
    + right. simpl in E. injection E as _ E. now exists l, c.
Qed.

Lemma take_while_split (f : char -> bool) (s : str) :
  s = take_while f s ++ lstrip_by f s.
Proof.
  induction s as [|c r IH]; simpl; [reflexivity|].
  destruct (f c); simpl; [now f_equal | reflexivity].
Qed.

Lemma take_while_all (f : char -> bool) (s : str) :
  forallb f (take_while f s) = true.
Proof.
  induction s as [|c r IH]; simpl; [reflexivity|].
  destruct (f c) eqn:F; simpl; [now rewrite F | reflexivity].
Qed.

Lemma lstrip_by_head (f : char -> bool) (s r : str) (c : char) :
  lstrip_by f s = c :: r -> f c = false.
Proof.
  induction s as [|d s IH]; simpl; [discriminate|].
  destruct (f d) eqn:F; [assumption|]. intros H. injection H as -> _. assumption.
Qed.

Lemma forallb_rev (f : char -> bool) (s : str) :
  forallb f s = true -> forallb f (rev s) = true.
Proof.
  rewrite !forallb_forall. intros H x Hx. apply H. now apply in_rev.
Qed.

(** A string is what precedes its last token, followed by that token; what
    precedes is empty or ends in whitespace. *)
Lemma trailing_token_split (s : str) :
  exists pre,
    s = pre ++ trailing_token s /\
    forallb nonspace (trailing_token s) = true /\
    (pre = [] \/ exists l c, pre = l ++ [c] /\ isspace c = true).
Proof.
  unfold trailing_token.
  exists (rev (lstrip_by nonspace (rev s))). repeat split.
  - rewrite <- rev_app_distr, <- take_while_split. symmetry. apply rev_involutive.
  - apply forallb_rev, take_while_all.
  - destruct (lstrip_by nonspace (rev s)) as [|c r] eqn:L; [now left|].
    right. exists (rev r), c. split; [reflexivity|].
    apply lstrip_by_head in L. unfold nonspace in L. now apply negb_false_iff in L.
Qed.

Lemma trailing_token_nonempty (l : str) (c : char) :
  isspace c = false -> trailing_token (l ++ [c]) <> [].
Proof.
  intros H. unfold trailing_token. rewrite rev_app_distr. simpl.
  unfold nonspace at 1. rewrite H. simpl.
  intros E. apply (f_equal (@List.length char)) in E.
  rewrite length_app in E. simpl in E. lia.
Qed.

Lemma search_word_trimmed (s : str) :
  (forall l c, s = l ++ [c] -> isspace c = false) ->
  search_word s = match s with [] => None | _ :: _ => Some (trailing_token s) end.
Proof.
  intros H. destruct s as [|a s]; [reflexivity|].
  destruct (trailing_token_split (a :: s)) as [pre [E [Hn Hp]]].
  rewrite E at 1. apply search_word_token; try assumption.
  destruct (exists_last (l := a :: s) ltac:(discriminate)) as [l [c El]].
  rewrite El. apply trailing_token_nonempty. now apply (H l c).
Qed.

(** [preceding_word] computes the word before [start]. *)
Lemma preceding_word_word_before (text : str) (start : Z) :
  preceding_word text start = word_before text start.
Proof.
  unfold preceding_word, word_before.
  rewrite search_word_trimmed.
  - destruct (rstrip (slice_to text start)); reflexivity.
  - intros l c. unfold rstrip. apply rstrip_by_last.
Qed.

(** *** The span expander *)

Lemma rfind_occurs (s p : str) :
  rfind s p <> -1 -> occurs_at s p (rfind s p).
Proof.
  intros H. unfold rfind in *.
  destruct (rfind_from_found s p 0 ltac:(lia) H) as [pre [post [E R]]].
  exists pre, post. split; [assumption | lia].
Qed.

(** The trimmed prefix is what precedes the adjacent token, the word, and
    the punctuation stripped from the token. *)
Lemma before_split (text : str) (start : Z) :
  exists pre punct,
    rstrip (slice_to text start) = pre ++ word_before text start ++ punct /\
    forallb is_punct punct = true /\
    len pre = adjacent_token_start text start.
Proof.
  unfold word_before, adjacent_token_start.
  set (before := rstrip (slice_to text start)).
  destruct (trailing_token_split before) as [pre [E _]].
  destruct (rstrip_by_split is_punct (trailing_token before)) as [punct [E' Hp]].
  exists pre, punct. repeat split.
  - rewrite <- E'. exact E.
  - assumption.
  - rewrite E at 1. unfold len. rewrite length_app. lia.
Qed.

Lemma before_length (text : str) (start : Z) :
  0 <= start <= len text -> len (rstrip (slice_to text start)) <= start.
Proof.
  intros H. destruct (slice_to_prefix text start) as [t [_ L]].
  rewrite (clip_id _ _ H) in L.
  pose proof (rstrip_by_length isspace (slice_to text start)).
  unfold rstrip, len in *. lia.
Qed.

(** In two readings of one string as a part, [c] and a rest, where the first
    reading's part satisfies [f] throughout and [c] does not satisfy it, the
    first part is the shorter one. *)
Lemma first_failure (f : char -> bool) (c : char) (l1 r1 l2 r2 : str) :
  l1 ++ c :: r1 = l2 ++ c :: r2 ->
  forallb f l1 = true -> f c = false ->
  (List.length l1 <= List.length l2)%nat.
Proof.
  revert l2. induction l1 as [|a l1 IH]; intros l2 E H Fc; simpl; [lia|].
  simpl in H. apply andb_true_iff in H. destruct H as [Fa H].
  destruct l2 as [|b l2]; simpl in E.
  - injection E as E _. congruence.
  - injection E as _ E. pose proof (IH l2 E H Fc). simpl. lia.
Qed.

(** A word that does not end in punctuation occurs nowhere to the right of
    the place where only punctuation follows it. *)
Lemma word_rightmost (pre word punct pre' post' : str) :
  word <> [] ->
  (forall l c, word = l ++ [c] -> is_punct c = false) ->
  forallb is_punct punct = true ->
  pre ++ word ++ punct = pre' ++ word ++ post' ->
  len pre' <= len pre.
Proof.
  intros Hw Hl Hp E.
  destruct (exists_last Hw) as [body [c Ew]].
  pose proof (Hl _ _ Ew) as Fc. subst word.
  assert (L : (List.length (rev punct) <= List.length (rev post'))%nat).
  { apply (first_failure is_punct c (rev punct) (rev (pre ++ body))
             (rev post') (rev (pre' ++ body))).
    - apply (f_equal (@rev char)) in E.
      repeat (rewrite ?rev_app_distr in E; simpl in E).
      repeat (rewrite ?rev_app_distr; simpl).
      repeat rewrite <- app_assoc in E. simpl in E. exact E.
    - now apply forallb_rev.
    - assumption. }
  apply (f_equal (@List.length char)) in E.
  rewrite !length_app in E. rewrite !length_rev in L. unfold len. lia.
Qed.


(** The expanded start is an index of the text at or before [start]. *)
Lemma expand_with_title_range (lower : str -> str) (text : str) (start : Z) :
  0 <= start <= len text ->
  0 <= expand_with_title lower text start <= start /\
  (mem (lower (preceding_word text start)) TITLES = true ->
   occurs_at (rstrip (slice_to text start)) (preceding_word text start)
     (expand_with_title lower text start)).
Proof.
  intros H. unfold expand_with_title.
  destruct (mem (lower (preceding_word text start)) TITLES) eqn:T.
  - rewrite preceding_word_word_before.
    destruct (before_split text start) as [pre [punct [E _]]].
    pose proof (rfind_bounds _ _ _ _ E) as B.
    pose proof (before_length text start H) as L.
    split; [lia|]. intros _. apply rfind_occurs. lia.
  - split; [lia | discriminate].
Qed.

(** *** The dict and the grouping *)

Lemma mem_In (x : str) (l : list str) : mem x l = true <-> In x l.
Proof.
  unfold mem. rewrite existsb_exists. split.
  - intros [y [Hy E]]. apply str_eqb_eq in E. now subst.
  - intros H. exists x. split; [assumption | apply str_eqb_refl].
Qed.

Lemma contains_keys (d : Dict.t) (k : str) :
  Dict.contains d k = mem k (Dict.keys d).
Proof.
  unfold Dict.contains, Dict.keys, mem.
  induction d as [|[k' v] d IH]; simpl; [reflexivity|]. now rewrite IH.
Qed.

Lemma set_absent (d : Dict.t) (k : str) (v : PersonRecord) :
  Dict.contains d k = false -> Dict.set d k v = d ++ [(k, v)].
Proof.
  induction d as [|[k' v'] d IH]; simpl; [reflexivity|].
  intros H. apply orb_false_iff in H. destruct H as [H1 H2].
  rewrite H1. now rewrite IH.
Qed.

Lemma modify_absent (d : Dict.t) (k : str) (f : PersonRecord -> PersonRecord) :
  Dict.contains d k = false -> Dict.modify d k f = d.
Proof.
  induction d as [|[k' v'] d IH]; simpl; [reflexivity|].
  intros H. apply orb_false_iff in H. destruct H as [H1 H2].
  rewrite H1. now rewrite IH.
Qed.

Lemma modify_app (d1 d2 : Dict.t) (k : str) (f : PersonRecord -> PersonRecord) :
  Dict.contains d1 k = false ->
  Dict.modify (d1 ++ d2) k f = d1 ++ Dict.modify d2 k f.
Proof.
  induction d1 as [|[k' v'] d1 IH]; simpl; [reflexivity|].
  intros H. apply orb_false_iff in H. destruct H as [H1 H2].
  rewrite H1. now rewrite IH.
Qed.

Lemma first_seen_In (x : str) (l : list str) : In x (first_seen l) <-> In x l.
Proof.
  induction l as [|a l IH]; simpl; [reflexivity|].
  rewrite filter_In, IH, negb_true_iff, str_eqb_neq. split.
  - intros [H | [H _]]; auto.
  - intros [H | H]; [now left|].
    destruct (str_eqb x a) eqn:E.
    + apply str_eqb_eq in E. now left.
    + apply str_eqb_neq in E. right. now split.
Qed.

Lemma first_seen_NoDup (l : list str) : NoDup (first_seen l).
Proof.
  induction l as [|a l IH]; simpl; constructor.
  - rewrite filter_In, negb_true_iff, str_eqb_neq. intros [_ H]. congruence.
  - now apply NoDup_filter.
Qed.

Lemma first_seen_snoc (l : list str) (x : str) :
  first_seen (l ++ [x]) =
  if mem x l then first_seen l else first_seen l ++ [x].
Proof.
  induction l as [|a l IH]; simpl; [reflexivity|].
  rewrite IH. unfold mem in *. simpl.
  destruct (str_eqb x a) eqn:E; simpl.
  - destruct (existsb (str_eqb x) l); [reflexivity|].
    rewrite filter_app. simpl. rewrite E. simpl. now rewrite app_nil_r.
  - destruct (existsb (str_eqb x) l); [reflexivity|].
    rewrite filter_app. simpl. rewrite E. reflexivity.
Qed.

Lemma occurrences_snoc (k nm : str) (p : Position) (ms : list (str * Position)) :
  occurrences k (ms ++ [(nm, p)]) =
  occurrences k ms ++ (if str_eqb nm k then [p] else []).
Proof.
  unfold occurrences. rewrite filter_app, map_app. simpl.
  destruct (str_eqb nm k); reflexivity.
Qed.

Lemma occurrences_absent (k : str) (ms : list (str * Position)) :
  ~ In k (List.map fst ms) -> occurrences k ms = [].
Proof.
  unfold occurrences. induction ms as [|[n p] ms IH]; simpl; [reflexivity|].
  intros H. destruct (str_eqb n k) eqn:E.
  - apply str_eqb_eq in E. tauto.
  - apply IH. tauto.
Qed.

Lemma grouped_keys (ms : list (str * Position)) :
  Dict.keys (grouped ms) = first_seen (List.map fst ms).
Proof.
  unfold Dict.keys, grouped. rewrite map_map. simpl. apply map_id.
Qed.

Lemma keys_map (g : str -> PersonRecord) (K : list str) :
  Dict.keys (List.map (fun k => (k, g k)) K) = K.
Proof. unfold Dict.keys. rewrite map_map. simpl. apply map_id. Qed.

Lemma mem_false (x : str) (l : list str) : mem x l = false <-> ~ In x l.
Proof.
  rewrite <- mem_In. destruct (mem x l); split; congruence.
Qed.

(** One pass through the end of the loop body adds one position to the
    grouping. *)
Lemma record_occurrence_grouped (ms : list (str * Position)) (nm : str) (p : Position) :
  record_occurrence (grouped ms) nm p = grouped (ms ++ [(nm, p)]).
Proof.
  unfold record_occurrence. rewrite contains_keys, grouped_keys.
  unfold grouped at 3. rewrite map_app. simpl List.map at 2.
  rewrite first_seen_snoc.
  assert (X : mem nm (first_seen (List.map fst ms)) = mem nm (List.map fst ms)).
  { destruct (mem nm (List.map fst ms)) eqn:M.
    - apply mem_In. apply first_seen_In. now apply mem_In.
    - apply mem_false. rewrite first_seen_In. now apply mem_false. }
  rewrite X.
  pose proof (first_seen_NoDup (List.map fst ms)) as ND.
  unfold grouped.
  set (K := first_seen (List.map fst ms)) in *.
  set (g := fun k => (k, mkPersonRecord k (occurrences k ms))).
  set (g' := fun k => (k, mkPersonRecord k (occurrences k (ms ++ [(nm, p)])))).
  assert (G : forall L, ~ In nm L -> List.map g' L = List.map g L).
  { intros L HL. apply map_ext_in. intros k Hk. unfold g', g.
    rewrite occurrences_snoc.
    destruct (str_eqb nm k) eqn:E.
    - apply str_eqb_eq in E. subst. contradiction.
    - now rewrite app_nil_r. }
  destruct (mem nm (List.map fst ms)) eqn:M; simpl negb; cbv iota.
  - assert (HK : In nm K) by (apply first_seen_In; now apply mem_In).
    destruct (in_split _ _ HK) as [K1 [K2 EK]].
    rewrite EK in ND. pose proof (NoDup_remove_2 _ _ _ ND) as NI.
    rewrite EK, !map_app. simpl List.map.
    rewrite modify_app.
    + rewrite (G K1), (G K2) by (intros H; apply NI, in_or_app; tauto).
      f_equal. unfold g at 2, g' at 1. simpl. rewrite str_eqb_refl.
      f_equal. f_equal. f_equal. rewrite occurrences_snoc, str_eqb_refl. reflexivity.
    + unfold g. rewrite contains_keys, keys_map.
      apply mem_false. intros H. apply NI, in_or_app. tauto.
  - assert (HK : ~ In nm K).
    { unfold K. rewrite first_seen_In. now apply mem_false. }
    assert (C : Dict.contains (List.map g K) nm = false).
    { unfold g. rewrite contains_keys, keys_map. now apply mem_false. }
    rewrite (set_absent _ _ _ C), (modify_app _ _ _ _ C).
    rewrite map_app, (G K HK). f_equal. simpl. rewrite str_eqb_refl.
    unfold g'. rewrite occurrences_snoc, str_eqb_refl.
    rewrite occurrences_absent; [reflexivity|]. now apply mem_false.
Qed.

Lemma fold_grouped (lower : str -> str) (text : str) (ents : list Entity)
  (ms : list (str * Position)) :
  fold_left (loop_body lower text) ents (grouped ms) =
  grouped (ms ++ mentions lower text ents).
Proof.
  revert ms. induction ents as [|e ents IH]; intros ms; simpl.
  - now rewrite app_nil_r.
  - unfold loop_body at 2. destruct (candidate lower text e) as [[nm p]|].
    + rewrite record_occurrence_grouped, IH, <- app_assoc. reflexivity.
    + apply IH.
Qed.

(** The list the handler builds is the grouping of the kept mentions. *)
Lemma aggregate_grouped (lower : str -> str) (text : str) (ents : list Entity) :
  aggregate lower text ents =
  List.map (fun k => mkPersonRecord k (occurrences k (mentions lower text ents)))
    (first_seen (List.map fst (mentions lower text ents))).
Proof.
  unfold aggregate. change Dict.empty with (grouped []).
  rewrite fold_grouped. simpl. unfold Dict.values, grouped.
  rewrite map_map. reflexivity.
Qed.

(** What the handler answers when the recognizer is the function [nlp]. *)
Lemma respond_extract_names (lower : str -> str) (nlp : str -> list Entity) (text : str) :
  respond_with nlp (extract_names lower text) =
  match strip text with
  | [] => []
  | _ :: _ => aggregate lower text (nlp text)
  end.
Proof.
  unfold respond_with, extract_names. destruct (strip text); reflexivity.
Qed.

(** *** The loop body *)

Lemma candidate_Some (lower : str -> str) (text : str) (e : Entity)
  (nm : str) (p : Position) :
  candidate lower text e = Some (nm, p) <->
  is_likely_person lower e text = true /\
  nm = strip_possessive
         (strip (slice text (expand_with_title lower text (start_char e)) (end_char e))) /\
  nm <> [] /\
  p = mkPosition (expand_with_title lower text (start_char e)) (end_char e).
Proof.
  unfold candidate. destruct (is_likely_person lower e text); simpl.
  - destruct (strip_possessive _) as [|c r] eqn:N.
    + split; [discriminate|]. intros [_ [-> [H _]]]. congruence.
    + split.
      * intros H. injection H as <- <-. repeat split. discriminate.
      * intros [_ [-> [_ ->]]]. reflexivity.
  - split; [discriminate|]. intros [H _]. discriminate.
Qed.

Lemma mentions_In (lower : str -> str) (text : str) (ents : list Entity)
  (m : str * Position) :
  In m (mentions lower text ents) <->
  exists e, In e ents /\ candidate lower text e = Some m.
Proof.
  unfold mentions. rewrite in_flat_map. split.
  - intros [e [He H]]. exists e. split; [assumption|].
    destruct (candidate lower text e) as [m'|]; simpl in H; [|contradiction].
    destruct H as [-> | []]. reflexivity.
  - intros [e [He H]]. exists e. split; [assumption|]. rewrite H. now left.
Qed.

Lemma occurrences_In (k : str) (p : Position) (ms : list (str * Position)) :
  In p (occurrences k ms) <-> In (k, p) ms.
Proof.
  unfold occurrences. rewrite in_map_iff. split.
  - intros [[n q] [E H]]. apply filter_In in H. destruct H as [H S].
    simpl in *. apply str_eqb_eq in S. now subst.
  - intros H. exists (k, p). split; [reflexivity|].
    apply filter_In. split; [assumption | apply str_eqb_refl].
Qed.

(** The records of a response, read off the kept mentions. *)
Lemma respond_records (lower : str -> str) (nlp : str -> list Entity) (text : str) :
  respond_with nlp (extract_names lower text) =
  List.map (fun k => mkPersonRecord k (occurrences k (kept lower nlp text)))
    (first_seen (List.map fst (kept lower nlp text))).
Proof.
  rewrite respond_extract_names. unfold kept.
  destruct (strip text); [reflexivity | apply aggregate_grouped].
Qed.

Lemma kept_In (lower : str -> str) (nlp : str -> list Entity) (text : str)
  (m : str * Position) :
  In m (kept lower nlp text) ->
  exists e, In e (nlp text) /\ candidate lower text e = Some m.
Proof.
  unfold kept. destruct (strip text); [intros [] | apply mentions_In].
Qed.

(** *** The possessive pattern *)

Lemma sub_possessive_marker (body : str) (q : char) :
  is_quote q = true -> sub_possessive (body ++ [q; LOWER_S]) = body.
Proof.
  intros Hq. induction body as [|c b IH].
  - simpl. rewrite Hq. reflexivity.
  - change ((c :: b) ++ [q; LOWER_S]) with (c :: (b ++ [q; LOWER_S])).
    cbn [sub_possessive]. rewrite IH.
    assert (M : match_possessive (c :: b ++ [q; LOWER_S]) = false).
    { destruct b as [|d b]; simpl.
      - now rewrite !andb_false_r.
      - rewrite at_dollar_long; [now rewrite !andb_false_r|].
        rewrite length_app. simpl. lia. }
    now rewrite M.
Qed.

Lemma sub_possessive_once (s : str) :
  sub_possessive s = s \/
  exists p q t, is_quote q = true /\ at_dollar t = true /\
    s = p ++ q :: LOWER_S :: t /\ sub_possessive s = p ++ t.
Proof.
  induction s as [|c r IH]; [now left|].
  cbn [sub_possessive]. destruct (match_possessive (c :: r)) eqn:M.
  - right. destruct r as [|d rest]; [discriminate|]. simpl in M.
    apply andb_true_iff in M. destruct M as [M Hd].
    apply andb_true_iff in M. destruct M as [Hq Hs].
    apply char_eqb_eq in Hs. subst d.
    exists [], c, rest. repeat split; try assumption.
    destruct rest as [|x [|y rest]]; try discriminate; reflexivity.
  - destruct IH as [E | [p [q [t [Hq [Ht [E R]]]]]]].
    + left. now rewrite E.
    + right. exists (c :: p), q, t. repeat split; try assumption.
      * simpl. now rewrite E.
      * simpl. now rewrite R.
Qed.

Lemma search_possessive_iff (s : str) :
  search_possessive s = true <->
  exists body q t, s = body ++ q :: LOWER_S :: t /\
    is_quote q = true /\ at_dollar t = true.
Proof.
  induction s as [|c r IH].
  - simpl. split; [discriminate|].
    intros [body [q [t [E _]]]]. destruct body; discriminate.
  - cbn [search_possessive]. rewrite orb_true_iff, IH. split.
    + intros [M | [body [q [t [E H]]]]].
      * destruct r as [|d rest]; [discriminate|]. simpl in M.
        apply andb_true_iff in M. destruct M as [M Hd].
        apply andb_true_iff in M. destruct M as [Hq Hs].
        apply char_eqb_eq in Hs. subst d. now exists [], c, rest.
      * exists (c :: body), q, t. split; [simpl; now f_equal | assumption].
    + intros [[|b body] [q [t [E [Hq Ht]]]]]; simpl in E; injection E as -> ->.
      * left. simpl. rewrite Hq, Ht. reflexivity.
      * right. now exists body, q, t.
Qed.

Lemma at_dollar_cases (t : str) : at_dollar t = true <-> t = [] \/ t = [LF].
Proof.
  destruct t as [|a [|b t]]; simpl.
  - split; auto.
  - rewrite char_eqb_eq. split.
    + intros ->. now right.
    + intros [H | H]; [discriminate | now injection H].
  - split; [discriminate | intros [H | H]; discriminate].
Qed.

(** On a string that does not end in a line feed the pattern is found
    exactly where the string ends with the marker. *)
Lemma search_possessive_ends (s : str) :
  (forall l, s <> l ++ [LF]) ->
  (search_possessive s = true <-> ends_with_possessive s).
Proof.
  intros N. rewrite search_possessive_iff. unfold ends_with_possessive. split.
  - intros [body [q [t [E [Hq Ht]]]]]. apply at_dollar_cases in Ht.
    destruct Ht as [-> | ->].
    + now exists body, q.
    + exfalso. apply (N (body ++ [q; LOWER_S])). rewrite E, <- app_assoc. reflexivity.
  - intros [body [q [E Hq]]]. now exists body, q, [].
Qed.

Lemma followed_by_possessive_iff (text : str) (end_ : Z) :
  startswith (slice_from text end_) [8217%N; LOWER_S]
  || startswith (slice_from text end_) [39%N; LOWER_S] = true <->
  followed_by_possessive text end_.
Proof.
  unfold followed_by_possessive. rewrite orb_true_iff, !startswith_iff. split.
  - intros [[post E] | [post E]]; rewrite E; eexists; eexists; split;
      reflexivity.
  - intros [q [rest [E Hq]]]. unfold is_quote in Hq.
    apply orb_true_iff in Hq. rewrite !char_eqb_eq in Hq.
    destruct Hq as [-> | ->]; [right | left]; now exists rest.
Qed.

Lemma has_possessive_iff (ent_text text : str) (end_ : Z) :
  has_possessive ent_text text end_ = true <->
  search_possessive ent_text = true \/ followed_by_possessive text end_.
Proof.
  unfold has_possessive. destruct (search_possessive ent_text).
  - split; auto.
  - rewrite followed_by_possessive_iff. split; [auto | intros [H | H]; [discriminate | assumption]].
Qed.

(** What the classifier decides, the pattern of the entity text as the
    program searches it. *)
Lemma is_likely_person_iff (lower : str -> str) (e : Entity) (text : str) :
  is_likely_person lower e text = true <->
  label_ e = PERSON \/
  (label_ e <> PERSON /\ strip (text_ e) <> [] /\
   (mem (lower (word_before text (start_char e))) TITLES = true \/
    ((search_possessive (text_ e) = true \/ followed_by_possessive text (end_char e)) /\
     ~ In (label_ e) NON_PERSON_LABELS))).
Proof.
  unfold is_likely_person. rewrite preceding_word_word_before.
  destruct (str_eqb (label_ e) PERSON) eqn:L.
  - apply str_eqb_eq in L. split; auto.
  - apply str_eqb_neq in L.
    destruct (strip (text_ e)) as [|c r] eqn:S.
    + split; [discriminate|]. intros [H | [_ [H _]]]; congruence.
    + destruct (mem (lower (word_before text (start_char e))) TITLES) eqn:T.
      * split; [|reflexivity]. intros _. right. repeat split; auto. discriminate.
      * destruct (has_possessive (text_ e) text (end_char e)) eqn:P;
          destruct (mem (label_ e) NON_PERSON_LABELS) eqn:M; simpl.
        -- split; [discriminate|]. apply mem_In in M.
           intros [H | [_ [_ [H | [_ H]]]]]; congruence || tauto.
        -- split; [|reflexivity]. intros _. right.
           apply has_possessive_iff in P. apply mem_false in M.
           repeat split; auto. discriminate.
        -- split; [discriminate|]. apply mem_In in M.
           intros [H | [_ [_ [H | [_ H]]]]]; congruence || tauto.
        -- split; [discriminate|].
           intros [H | [_ [_ [H | [H _]]]]]; try congruence.
           apply has_possessive_iff in H. congruence.
Qed.

(** Where the text of the entity does not end in a line feed, the classifier
    decides as the specification describes. *)
Lemma is_likely_person_described (lower : str -> str) (e : Entity) (text : str) :
  (forall l, text_ e <> l ++ [LF]) ->
  (is_likely_person lower e text = true <-> described_person lower e text).
Proof.
  intros N. rewrite is_likely_person_iff. unfold described_person.
  rewrite (search_possessive_ends (text_ e) N). reflexivity.
Qed.

Lemma strip_slice_blank (text : str) (a b : Z) :
  strip (slice text a b) <> [] -> strip text <> [].
Proof.
  intros H B. apply H. apply strip_blank. apply strip_blank in B.
  rewrite forallb_forall in *. intros x Hx. apply B.
  unfold slice in Hx.
  set (n := Z.to_nat (clip (len text) a)) in *.
  set (m := Z.to_nat (clip (len text) b - clip (len text) a)) in *.
  rewrite <- (firstn_skipn n text). apply in_or_app. right.
  rewrite <- (firstn_skipn m (skipn n text)). apply in_or_app. now left.
Qed.

(** *** Slices *)

Lemma slice_to_app (text more : str) (start : Z) :
  0 <= start <= len text -> slice_to (text ++ more) start = slice_to text start.
Proof.
  intros H. unfold slice_to.
  rewrite !clip_id; try assumption.
  - rewrite firstn_app.
    replace (Z.to_nat start - List.length text)%nat with 0%nat
      by (unfold len in H; lia).
    simpl. apply app_nil_r.
  - unfold len in *. rewrite length_app. lia.
Qed.

Lemma slice_middle (a m r : str) :
  slice (a ++ m ++ r) (len a) (len a + len m) = m.
Proof.
  unfold slice.
  assert (L : len (a ++ m ++ r) = len a + len m + len r).
  { unfold len. rewrite !length_app. lia. }
  pose proof (len_nonneg a). pose proof (len_nonneg m). pose proof (len_nonneg r).
  rewrite !clip_id by lia.
  replace (Z.to_nat (len a)) with (List.length a) by (unfold len; lia).
  replace (Z.to_nat (len a + len m - len a)) with (List.length m)
    by (unfold len; lia).
  rewrite skipn_app. rewrite skipn_all, Nat.sub_diag. simpl.
  rewrite firstn_app, firstn_all, Nat.sub_diag. simpl. apply app_nil_r.
Qed.

(** Where the word before [start] is a title, the expanded start is the
    index at which the adjacent token begins. *)
Lemma expand_with_title_token (lower : str -> str) (text : str) (start : Z) :
  lower [] = [] ->
  mem (lower (word_before text start)) TITLES = true ->
  expand_with_title lower text start = adjacent_token_start text start.
Proof.
  intros Hl T. unfold expand_with_title.
  rewrite preceding_word_word_before, T.
  destruct (before_split text start) as [pre [punct [E [Hp A]]]].
  rewrite <- A. apply (rfind_rightmost _ _ _ _ E).
  intros pre' post' E'. rewrite E in E'.
  apply (word_rightmost pre (word_before text start) punct pre' post');
    try assumption.
  - intros W. rewrite W, Hl in T. discriminate.
  - intros l c. unfold word_before. apply rstrip_by_last.
Qed.

Lemma search_possessive_text (s : str) :
  search_possessive s = true <-> possessive_text s.
Proof.
  rewrite search_possessive_iff. unfold possessive_text, ends_with_possessive.
  split.
  - intros [body [q [t [E [Hq Ht]]]]]. apply at_dollar_cases in Ht.
    destruct Ht as [-> | ->].
    + left. now exists body, q.
    + right. exists (body ++ [q; LOWER_S]). split.
      * rewrite E, <- app_assoc. reflexivity.
      * now exists body, q.
  - intros [[body [q [E Hq]]] | [s' [E [body [q [E' Hq]]]]]].
    + now exists body, q, [].
    + exists body, q, [LF]. repeat split; try assumption.
      rewrite E, E', <- app_assoc. reflexivity.
Qed.

(** *** Counting and extending the grouping *)

Lemma str_eqb_sym (a b : str) : str_eqb a b = str_eqb b a.
Proof.
  destruct (str_eqb a b) eqn:E.
  - apply str_eqb_eq in E. subst. symmetry. apply str_eqb_refl.
  - apply str_eqb_neq in E. symmetry. apply str_eqb_neq. congruence.
Qed.

Lemma sum_split (g : str -> nat) (n : str) (K : list str) :
  NoDup K ->
  list_sum (List.map g K) =
  ((if mem n K then g n else 0) +
   list_sum (List.map g (filter (fun y => negb (str_eqb y n)) K)))%nat.
Proof.
  induction K as [|a K IH]; intros ND; [reflexivity|].
  inversion ND as [|? ? NI ND']; subst.
  unfold mem in *. simpl. rewrite (IH ND'). rewrite (str_eqb_sym a n).
  destruct (str_eqb n a) eqn:E; simpl.
  - apply str_eqb_eq in E. subst a.
    assert (M : existsb (str_eqb n) K = false) by (now apply mem_false).
    rewrite M. lia.
  - destruct (existsb (str_eqb n) K); lia.
Qed.

Lemma occurrences_cons (k n : str) (p : Position) (ms : list (str * Position)) :
  occurrences k ((n, p) :: ms) =
  if str_eqb n k then p :: occurrences k ms else occurrences k ms.
Proof. unfold occurrences. simpl. destruct (str_eqb n k); reflexivity. Qed.

(** Over the names in first-seen order, the positions add up to the
    mentions. *)
Lemma total_occurrences (ms : list (str * Position)) :
  list_sum (List.map (fun k => List.length (occurrences k ms))
              (first_seen (List.map fst ms))) = List.length ms.
Proof.
  induction ms as [|[n p] ms IH]; [reflexivity|].
  cbn [List.map fst first_seen list_sum].
  rewrite occurrences_cons, str_eqb_refl. cbn [List.length].
  set (K := first_seen (List.map fst ms)) in *.
  assert (F : List.map (fun k => List.length (occurrences k ((n, p) :: ms)))
                (filter (fun y => negb (str_eqb y n)) K) =
              List.map (fun k => List.length (occurrences k ms))
                (filter (fun y => negb (str_eqb y n)) K)).
  { apply map_ext_in. intros k Hk. apply filter_In in Hk. destruct Hk as [_ Hk].
    apply negb_true_iff in Hk. rewrite occurrences_cons, str_eqb_sym, Hk.
    reflexivity. }
  rewrite F.
  pose proof (sum_split (fun k => List.length (occurrences k ms)) n K
                (first_seen_NoDup _)) as S.
  assert (G : (if mem n K then List.length (occurrences n ms) else 0%nat)
              = List.length (occurrences n ms)).
  { destruct (mem n K) eqn:M; [reflexivity|].
    rewrite occurrences_absent; [reflexivity|].
    apply mem_false in M. unfold K in M. now rewrite first_seen_In in M. }
  cbv beta in S. rewrite G in S.
  unfold list_sum in *. cbn [fold_right]. lia.
Qed.

Lemma occurrences_app (k : str) (a b : list (str * Position)) :
  occurrences k (a ++ b) = occurrences k a ++ occurrences k b.
Proof. unfold occurrences. now rewrite filter_app, map_app. Qed.

Lemma first_seen_extends (l1 l2 : list str) :
  exists rest, first_seen (l1 ++ l2) = first_seen l1 ++ rest.
Proof.
  induction l2 as [|x l2 IH] using rev_ind.
  - exists []. now rewrite !app_nil_r.
  - destruct IH as [rest E]. rewrite app_assoc, first_seen_snoc, E.
    destruct (mem x (l1 ++ l2)).
    + now exists rest.
    + exists (rest ++ [x]). now rewrite app_assoc.
Qed.

Lemma mentions_app (lower : str -> str) (text : str) (e1 e2 : list Entity) :
  mentions lower text (e1 ++ e2) = mentions lower text e1 ++ mentions lower text e2.
Proof. unfold mentions. apply flat_map_app. Qed.

(** *** Trimmed strings and parts of the text *)

Lemma rstrip_by_fixed (f : char -> bool) (s : str) :
  (forall l c, s = l ++ [c] -> f c = false) -> rstrip_by f s = s.
Proof.
  intros H. destruct (rstrip_by_split f s) as [t [E Ht]].
  destruct t as [|a t] using rev_ind.
  - now rewrite app_nil_r in E.
  - clear IHt. rewrite forallb_app in Ht. simpl in Ht.
    rewrite andb_true_r in Ht. apply andb_true_iff in Ht. destruct Ht as [_ Fa].
    rewrite app_assoc in E. apply H in E. congruence.
Qed.

Lemma strip_trimmed (s : str) : trimmed (strip s).
Proof.
  split.
  - intros c r E. unfold strip, rstrip in E.
    destruct (rstrip_by_split isspace (lstrip s)) as [t [E' _]].
    rewrite E in E'. simpl in E'. unfold lstrip in E'.
    now apply lstrip_by_head in E'.
  - apply strip_last.
Qed.

Lemma trimmed_strip (s : str) : trimmed s -> strip s = s.
Proof.
  intros [Hh Hl]. unfold strip, lstrip, rstrip.
  assert (L : lstrip_by isspace s = s).
  { destruct s as [|c r]; [reflexivity|]. simpl. now rewrite (Hh c r eq_refl). }
  rewrite L. now apply rstrip_by_fixed.
Qed.

Lemma strip_idempotent (s : str) : strip (strip s) = strip s.
Proof. apply trimmed_strip, strip_trimmed. Qed.

Lemma part_of_refl (a : str) : part_of a a.
Proof. exists [], []. now rewrite app_nil_r. Qed.

Lemma part_of_trans (a b c : str) : part_of a b -> part_of b c -> part_of a c.
Proof.
  intros [p1 [q1 E1]] [p2 [q2 E2]]. exists (p2 ++ p1), (q1 ++ q2).
  rewrite E2, E1. now rewrite <- !app_assoc.
Qed.

Lemma strip_part (s : str) : part_of (strip s) s.
Proof.
  unfold strip, lstrip, rstrip.
  destruct (lstrip_by_split isspace s) as [t1 [E1 _]].
  destruct (rstrip_by_split isspace (lstrip_by isspace s)) as [t2 [E2 _]].
  exists t1, t2. rewrite <- E2. exact E1.
Qed.

Lemma slice_part (text : str) (a b : Z) : part_of (slice text a b) text.
Proof.
  unfold slice.
  set (n := Z.to_nat (clip (len text) a)).
  set (m := Z.to_nat (clip (len text) b - clip (len text) a)).
  exists (firstn n text), (skipn m (skipn n text)).
  now rewrite firstn_skipn, firstn_skipn.
Qed.

(** On a trimmed string the substitution removes the marker that ends it,
    or nothing. *)
Lemma sub_possessive_trimmed (s : str) :
  trimmed s ->
  (sub_possessive s = s /\ ~ ends_with_possessive s) \/
  (exists q, is_quote q = true /\ s = sub_possessive s ++ [q; LOWER_S]).
Proof.
  intros [_ Hl].
  destruct (search_possessive s) eqn:F.
  - right. apply search_possessive_text in F.
    destruct F as [[body [q [E Hq]]] | [s' [E _]]].
    + exists q. split; [assumption|]. rewrite E at 2.
      now rewrite (sub_possessive_marker body q Hq).
    + apply Hl in E. discriminate.
  - left.
    assert (N : ~ ends_with_possessive s).
    { intros H. assert (P : possessive_text s) by now left.
      apply search_possessive_text in P. congruence. }
    split; [|assumption].
    destruct (sub_possessive_once s) as [E | [p [q [t [Hq [Ht [E _]]]]]]];
      [assumption|].
    assert (X : search_possessive s = true).
    { apply search_possessive_iff. now exists p, q, t. }
    congruence.
Qed.

Lemma strip_possessive_part (s : str) :
  trimmed s -> part_of (strip_possessive s) s.
Proof.
  intros T. unfold strip_possessive.
  apply (part_of_trans _ _ _ (strip_part (sub_possessive s))).
  destruct (sub_possessive_trimmed s T) as [[E _] | [q [_ E]]].
  - rewrite E. apply part_of_refl.
  - exists [], [q; LOWER_S]. simpl. exact E.
Qed.

(** *** The body of the request *)

Lemma dict_get_absent (fields : list (str * Json)) (k : str) (default : Json) :
  ~ In k (List.map fst fields) -> dict_get fields k default = default.
Proof.
  intros H. unfold dict_get.
  destruct (find (fun b => str_eqb k (fst b)) fields) as [b|] eqn:F; [|reflexivity].
  apply find_some in F. destruct F as [Hb E]. apply str_eqb_eq in E.
  exfalso. apply H. rewrite E. now apply in_map.
Qed.

Lemma respond_with_map {A B : Type} (f : A -> B) (nlp : str -> list Entity)
  (r : Request A) :
  respond_with nlp (map_request f r) = f (respond_with nlp r).
Proof.
  unfold respond_with. induction r as [a | text k IH]; simpl; [reflexivity|].
  apply IH.
Qed.

Lemma invocations_map {A B : Type} (f : A -> B) (nlp : str -> list Entity)
  (r : Request A) :
  invocations nlp (map_request f r) = invocations nlp r.
Proof.
  induction r as [a | text k IH]; simpl; [reflexivity|]. now rewrite IH.
Qed.

(** *** The title set in any order *)

Lemma mem_members (x : str) (l1 l2 : list str) :
  (forall y, In y l1 <-> In y l2) -> mem x l1 = mem x l2.
Proof.
  intros H. destruct (mem x l2) eqn:M.
  - apply mem_In. apply H. now apply mem_In.
  - apply mem_false. rewrite H. now apply mem_false.
Qed.

Lemma candidate_with_members (titles : list str) (lower : str -> str)
  (text : str) (e : Entity) :
  (forall y, In y titles <-> In y TITLES) ->
  candidate_with titles lower text e = candidate lower text e.
Proof.
  intros H.
  unfold candidate_with, candidate, is_likely_person_with, is_likely_person,
    expand_with_title_with, expand_with_title.
  now rewrite !(mem_members _ titles TITLES H).
Qed.

Lemma fold_left_pointwise {A B : Type} (f g : A -> B -> A) (l : list B) (a : A) :
  (forall x y, f x y = g x y) -> fold_left f l a = fold_left g l a.
Proof.
  intros H. revert a. induction l as [|b l IH]; intros a; simpl; [reflexivity|].
  now rewrite H, IH.
Qed.

Lemma aggregate_with_members (titles : list str) (lower : str -> str)
  (text : str) (ents : list Entity) :
  (forall y, In y titles <-> In y TITLES) ->
  aggregate_with titles lower text ents = aggregate lower text ents.
Proof.
  intros H. unfold aggregate_with, aggregate. f_equal.
  apply fold_left_pointwise. intros d e. unfold loop_body_with, loop_body.
  now rewrite (candidate_with_members titles lower text e H).
Qed.

(** A run of the handler, the titles in any order and the recognizer in any
    state, answers as the handler of the program answers to the entities
    the recognizer finds in that state. *)
Lemma serve_extract_names_with (titles : list str) (lower : str -> str)
  (S : Type) (nlp : S -> str -> list Entity * S) (text : str) (s : S) :
  (forall y, In y titles <-> In y TITLES) ->
  fst (serve nlp (extract_names_with titles lower text) s) =
  respond_with (fun _ => fst (nlp s text)) (extract_names lower text).
Proof.
  intros H. rewrite respond_extract_names. unfold extract_names_with.
  destruct (strip text); [reflexivity|]. simpl.
  destruct (nlp s text) as [ents s']. simpl.
  apply aggregate_with_members, H.
Qed.

(** With the titles in the order of the source text the handler over a
    title set is the handler of the program. *)
Lemma extract_names_with_TITLES (lower : str -> str) (text : str) :
  extract_names_with TITLES lower text = extract_names lower text.
Proof. reflexivity. Qed.
(** ** Properties of the specification *)

(** C8. For every text and every [start] with [0 <= start <= len text],
    [expand_with_title] returns a value between [0] and [start]: expansion
    never moves the start of a span forward, and where the preceding word is
    a title the word occurs in the trimmed prefix at the index returned, so
    that the value [-1] of [rfind] is never returned. *)
Theorem expand_with_title_bounds (lower : str -> str) (text : str) (start : Z) :
  0 <= start <= len text ->
  0 <= expand_with_title lower text start <= start /\
  (mem (lower (preceding_word text start)) TITLES = true ->
   occurs_at (rstrip (slice_to text start)) (preceding_word text start)
     (expand_with_title lower text start)).
Proof. apply expand_with_title_range. Qed.

Lemma expand_with_title_bounds_witness :
  0 <= 7 <= len (lit "Prince Philip died.") /\
  0 <= expand_with_title ascii_lower (lit "Prince Philip died.") 7 <= 7.
Proof.
  assert (H : 0 <= 7 <= len (lit "Prince Philip died.")) by (vm_compute; split; discriminate).
  split; [exact H|].
  exact (proj1 (expand_with_title_bounds ascii_lower (lit "Prince Philip died.") 7 H)).
Defined.

(** C2. Where the word before [start], without its trailing [.,;:] and
    lowercased, is in the title dictionary, [expand_with_title] returns the
    index of the rightmost occurrence of that word in the trimmed prefix
    [text[:start]], and that index is the one at which the token next to
    [start] begins; where the word is no title it returns [start]. The word
    is the one [preceding_word] computes. Lowercasing maps the empty string
    to itself. *)
Theorem expand_with_title_adjacent (lower : str -> str) (text : str) (start : Z) :
  lower [] = [] ->
  preceding_word text start = word_before text start /\
  (mem (lower (word_before text start)) TITLES = true ->
   rightmost_occurrence (rstrip (slice_to text start)) (word_before text start)
     (expand_with_title lower text start) /\
   expand_with_title lower text start = adjacent_token_start text start) /\
  (mem (lower (word_before text start)) TITLES = false ->
   expand_with_title lower text start = start).
Proof.
  intros Hl. split; [apply preceding_word_word_before|].
  unfold expand_with_title. rewrite preceding_word_word_before.
  split; intros T; rewrite T; [|reflexivity].
  destruct (before_split text start) as [pre [punct [E [Hp A]]]].
  assert (Hw : word_before text start <> []).
  { intros W. rewrite W, Hl in T. discriminate. }
  assert (M : forall pre' post',
             rstrip (slice_to text start) = pre' ++ word_before text start ++ post' ->
             len pre' <= len pre).
  { intros pre' post' E'. rewrite E in E'.
    apply (word_rightmost pre (word_before text start) punct pre' post'); try assumption.
    intros l c. unfold word_before. apply rstrip_by_last. }
  rewrite (rfind_rightmost _ _ _ _ E M). split; [|assumption]. split.
  - now exists pre, punct.
  - intros j [pre' [post' [E' <-]]]. exact (M pre' post' E').
Qed.

Lemma expand_with_title_adjacent_witness :
  ascii_lower [] = [] /\
  expand_with_title ascii_lower (lit "Dr met Dr. Who") 11 = 7 /\
  adjacent_token_start (lit "Dr met Dr. Who") 11 = 7.
Proof.
  pose proof (expand_with_title_adjacent ascii_lower (lit "Dr met Dr. Who") 11 eq_refl)
    as [_ [H _]].
  split; [reflexivity|]. split; [reflexivity|].
  rewrite <- (proj2 (H eq_refl)). reflexivity.
Defined.

(** C6. For every text that is empty or consists of whitespace only, the
    handler answers with the empty list and is a finished response: it holds
    no call of the recognizer, so no recognizer is invoked and the state of
    a recognizer is left as it was. *)
Theorem extract_names_blank (lower : str -> str) (text : str) :
  forallb isspace text = true ->
  extract_names lower text = Respond [] /\
  (forall nlp, invocations nlp (extract_names lower text) = []) /\
  (forall (S : Type) (nlp : S -> str -> list Entity * S) (s : S),
      serve nlp (extract_names lower text) s = ([], s)).
Proof.
  intros H. apply strip_blank in H.
  assert (E : extract_names lower text = Respond []).
  { unfold extract_names. now rewrite H. }
  rewrite E. repeat split.
Qed.

Lemma extract_names_blank_witness :
  forallb isspace (lit " ") = true /\
  extract_names ascii_lower (lit " ") = Respond [].
Proof.
  split; [reflexivity|].
  exact (proj1 (extract_names_blank ascii_lower (lit " ") eq_refl)).
Defined.

(** C7. Two runs of the handler on the same text give the same response,
    records and positions in the same order, whenever the recognizer finds
    the same entities for that text in the two runs, as a deterministic
    recognizer does: whatever states the recognizer is in, whatever it
    would answer to another text or to a second call, and in whatever order
    the title set holds its strings in the two runs. The response is the
    one the text and the entities found determine: the names of the kept
    entities in first-seen order, each with its positions in the order of
    the entities. *)
Theorem extract_names_deterministic (lower : str -> str)
  (titles1 titles2 : list str) (S1 S2 : Type)
  (nlp1 : S1 -> str -> list Entity * S1) (nlp2 : S2 -> str -> list Entity * S2)
  (text : str) (s1 : S1) (s2 : S2) :
  (forall y, In y titles1 <-> In y TITLES) ->
  (forall y, In y titles2 <-> In y TITLES) ->
  fst (nlp1 s1 text) = fst (nlp2 s2 text) ->
  let ms := kept lower (fun _ => fst (nlp1 s1 text)) text in
  fst (serve nlp1 (extract_names_with titles1 lower text) s1) =
  fst (serve nlp2 (extract_names_with titles2 lower text) s2) /\
  fst (serve nlp1 (extract_names_with titles1 lower text) s1) =
  List.map (fun k => mkPersonRecord k (occurrences k ms))
    (first_seen (List.map fst ms)).
Proof.
  intros H1 H2 E. cbv zeta.
  rewrite (serve_extract_names_with titles1 lower S1 nlp1 text s1 H1).
  rewrite (serve_extract_names_with titles2 lower S2 nlp2 text s2 H2).
  rewrite <- E. split; [reflexivity|]. apply respond_records.
Qed.

(** C9. One application of the possessive normalization removes at most one
    marker, the one that ends the string, and the normalization is not
    idempotent: on a name that ends in two markers a second application
    removes the second one. *)
Theorem strip_possessive_not_idempotent :
  (forall s, sub_possessive s = s \/
     exists p q t, is_quote q = true /\ at_dollar t = true /\
       s = p ++ q :: LOWER_S :: t /\ sub_possessive s = p ++ t) /\
  strip_possessive (lit "Bob" ++ [RSQUO; LOWER_S; RSQUO; LOWER_S])
    = lit "Bob" ++ [RSQUO; LOWER_S] /\
  strip_possessive (strip_possessive (lit "Bob" ++ [RSQUO; LOWER_S; RSQUO; LOWER_S]))
    = lit "Bob" /\
  exists s, strip_possessive (strip_possessive s) <> strip_possessive s.
Proof.
  split; [exact sub_possessive_once|].
  split; [reflexivity|]. split; [reflexivity|].
  exists (lit "Bob" ++ [RSQUO; LOWER_S; RSQUO; LOWER_S]). discriminate.
Qed.

Lemma extract_names_deterministic_witness :
  fst (counting_nlp 0%nat (lit "John Smith left")) =
  fst (counting_nlp 1%nat (lit "John Smith left")) /\
  fst (serve counting_nlp
         (extract_names_with TITLES ascii_lower (lit "John Smith left")) 0%nat) =
  fst (serve counting_nlp
         (extract_names_with (rev TITLES) ascii_lower (lit "John Smith left")) 1%nat).
Proof.
  split; [reflexivity|].
  exact (proj1 (extract_names_deterministic ascii_lower TITLES (rev TITLES)
                  nat nat counting_nlp counting_nlp (lit "John Smith left")
                  0%nat 1%nat
                  (fun y => iff_refl _)
                  (fun y => iff_sym (in_rev TITLES y))
                  eq_refl)).
Defined.

(** C10. The classifier accepts every entity labelled [PERSON] whatever its
    text is, blank texts included, and still no record of a response has an
    empty name: an accepted entity whose normalized text is empty adds no
    record. *)
Theorem no_empty_name (lower : str -> str) (nlp : str -> list Entity) (text : str) :
  (forall txt s e, is_likely_person lower (mkEntity txt PERSON s e) text = true) /\
  Forall (fun r => name r <> [])
    (respond_with nlp (extract_names lower text)).
Proof.
  split; [reflexivity|].
  rewrite respond_records. apply Forall_forall. intros r Hr.
  apply in_map_iff in Hr. destruct Hr as [k [<- Hk]]. simpl.
  apply first_seen_In, in_map_iff in Hk. destruct Hk as [[nm p] [<- Hm]].
  apply kept_In in Hm. destruct Hm as [e [_ C]].
  apply candidate_Some in C. simpl. tauto.
Qed.

(** C3. For every text and every output of the recognizer, the response has
    at most one record for a normalized name; the records stand in the order
    in which their names are first seen among the kept entities, and the
    positions of a record are those of the kept entities of that name, in
    the order of the recognizer's sequence. *)
Theorem extract_names_grouping (lower : str -> str) (nlp : str -> list Entity) (text : str) :
  let out := respond_with nlp (extract_names lower text) in
  let ms := kept lower nlp text in
  NoDup (List.map name out) /\
  List.map name out = first_seen (List.map fst ms) /\
  Forall (fun r => positions r = occurrences (name r) ms) out.
Proof.
  cbv zeta. rewrite respond_records.
  assert (N : forall K, List.map name
                (List.map (fun k => mkPersonRecord k
                    (occurrences k (kept lower nlp text))) K) = K).
  { intros K. rewrite map_map. simpl. apply map_id. }
  rewrite N. repeat split.
  - apply first_seen_NoDup.
  - apply Forall_forall. intros r Hr.
    apply in_map_iff in Hr. destruct Hr as [k [<- _]]. reflexivity.
Qed.

(** C4. Where every span of the recognizer lies within the text and is not
    empty, every position of every record of the response satisfies
    [0 <= start < end <= len text]; its end is the end of an entity of the
    recognizer and its start the expanded start of that entity. *)
Theorem positions_within_text (lower : str -> str) (nlp : str -> list Entity) (text : str) :
  Forall (well_formed text) (nlp text) ->
  Forall (fun r =>
    Forall (fun p =>
      (0 <= p_start p /\ p_start p < p_end p /\ p_end p <= len text) /\
      exists e, In e (nlp text) /\ p_end p = end_char e /\
                p_start p = expand_with_title lower text (start_char e))
      (positions r))
    (respond_with nlp (extract_names lower text)).
Proof.
  intros W. rewrite Forall_forall in W.
  rewrite respond_records. apply Forall_forall. intros r Hr.
  apply in_map_iff in Hr. destruct Hr as [k [<- _]]. simpl.
  apply Forall_forall. intros p Hp.
  apply occurrences_In, kept_In in Hp. destruct Hp as [e [He C]].
  apply candidate_Some in C. destruct C as [_ [_ [_ ->]]]. simpl.
  destruct (W e He) as [W1 [W2 W3]].
  pose proof (proj1 (expand_with_title_range lower text (start_char e)
                       ltac:(lia))) as B.
  split; [lia|]. exists e. repeat split. assumption.
Qed.

Lemma positions_within_text_witness :
  Forall (well_formed (lit "Prince Philip died."))
    (sample_nlp (lit "Prince Philip died.")) /\
  Forall (fun r => Forall (fun p => 0 <= p_start p /\ p_start p < p_end p) (positions r))
    (respond_with sample_nlp (extract_names ascii_lower (lit "Prince Philip died."))).
Proof.
  assert (W : Forall (well_formed (lit "Prince Philip died."))
                (sample_nlp (lit "Prince Philip died."))).
  { repeat constructor; vm_compute; discriminate. }
  split; [exact W|].
  pose proof (positions_within_text ascii_lower sample_nlp
                (lit "Prince Philip died.") W) as H.
  eapply Forall_impl; [|exact H]. intros r Hr.
  eapply Forall_impl; [|exact Hr]. intros p Hp. simpl in Hp. tauto.
Defined.

(** C5. Possessive normalization changes the name only. For every entity
    the loop keeps whose extracted text ends with ['s] or [’s], the name
    recorded is the extracted text without the marker, trimmed; the position
    recorded still runs from the expanded start to the end offset of the
    entity, marker included; and the response holds a record of that name
    with that position. *)
Theorem possessive_keeps_offsets (lower : str -> str) (nlp : str -> list Entity)
  (text : str) (e : Entity) (nm body : str) (p : Position) (q : char) :
  In e (nlp text) ->
  candidate lower text e = Some (nm, p) ->
  strip (slice text (expand_with_title lower text (start_char e)) (end_char e))
    = body ++ [q; LOWER_S] ->
  is_quote q = true ->
  nm = strip body /\
  p = mkPosition (expand_with_title lower text (start_char e)) (end_char e) /\
  exists r, In r (respond_with nlp (extract_names lower text)) /\
            name r = nm /\ In p (positions r).
Proof.
  intros He C R Hq.
  pose proof (proj1 (candidate_Some lower text e nm p) C) as [_ [N [Hn P]]].
  rewrite R in N. unfold strip_possessive in N.
  rewrite (sub_possessive_marker body q Hq) in N.
  split; [assumption|]. split; [assumption|].
  assert (K : In (nm, p) (kept lower nlp text)).
  { unfold kept. destruct (strip text) eqn:S.
    - exfalso. apply (strip_slice_blank text
        (expand_with_title lower text (start_char e)) (end_char e)); [|assumption].
      rewrite R. destruct body; discriminate.
    - apply mentions_In. now exists e. }
  exists (mkPersonRecord nm (occurrences nm (kept lower nlp text))).
  rewrite respond_records. simpl. repeat split.
  - apply in_map_iff. exists nm. split; [reflexivity|].
    apply first_seen_In. apply in_map_iff. now exists (nm, p).
  - now apply occurrences_In.
Qed.

Lemma possessive_keeps_offsets_witness :
  exists r,
    In r (respond_with
            (fun _ => [mkEntity (lit "Smith's") (lit "PRODUCT") 0 7])
            (extract_names ascii_lower (lit "Smith's legacy"))) /\
    name r = lit "Smith" /\ In (mkPosition 0 7) (positions r).
Proof.
  exact (proj2 (proj2 (possessive_keeps_offsets ascii_lower
    (fun _ => [mkEntity (lit "Smith's") (lit "PRODUCT") 0 7])
    (lit "Smith's legacy")
    (mkEntity (lit "Smith's") (lit "PRODUCT") 0 7)
    (lit "Smith") (lit "Smith") (mkPosition 0 7) 39%N
    (or_introl eq_refl) eq_refl eq_refl eq_refl))).
Defined.

(** The description of C1 as the specification writes it, with the entity
    text required to end with the marker, fails on an entity text that ends
    with the marker and a line feed: the search with [$] finds the marker
    before the final line feed, and the entity [Bob's] followed by a line
    feed, labelled [PRODUCT], is classified as a person. *)
Theorem is_likely_person_final_line_feed :
  let text := lit "Bob's" ++ [LF] ++ lit "house" in
  let e := mkEntity (lit "Bob's" ++ [LF]) (lit "PRODUCT") 0 6 in
  text_ e = slice text (start_char e) (end_char e) /\
  is_likely_person ascii_lower e text = true /\
  ~ described_person ascii_lower e text.
Proof.
  cbv zeta. split; [reflexivity|]. split; [reflexivity|].
  intros [H | [_ [_ [H | [[H | H] _]]]]].
  - discriminate.
  - discriminate.
  - destruct H as [body [q [E _]]].
    apply (f_equal (@rev char)) in E. rewrite rev_app_distr in E.
    simpl in E. discriminate.
  - destruct H as [q [rest [E _]]]. vm_compute in E. discriminate.
Qed.

(** C1, amended. [is_likely_person] returns true exactly when the label of
    the entity is [PERSON]; or, for another label and an entity text that
    is not blank, when the word before the start of the entity, its
    trailing [.,;:] stripped and lowercased, is in the title dictionary; or
    when the entity text ends with ['s] or [’s], or with one of them and
    one final line feed, or the text after the end of the entity starts
    with ['s] or [’s], and the label is none of [ORG], [GPE], [FAC],
    [NORP], [EVENT]. In every other case it returns false. *)
Theorem is_likely_person_amended (lower : str -> str) (e : Entity) (text : str) :
  is_likely_person lower e text = true <-> described_person_amended lower e text.
Proof.
  unfold described_person_amended.
  rewrite is_likely_person_iff, search_possessive_text. reflexivity.
Qed.

(** ** Further properties of the heuristics *)

(** X1. The word [preceding_word] returns is in the text right before
    [start]: the prefix [text[:start]] is some text that is empty or ends in
    whitespace, the word, punctuation of [.,;:] only and whitespace only.
    The word holds no whitespace and does not end in one of [.,;:]. *)
Theorem preceding_word_shape (text : str) (start : Z) :
  let w := preceding_word text start in
  (exists pre punct ws,
      slice_to text start = pre ++ w ++ punct ++ ws /\
      forallb is_punct punct = true /\ forallb isspace ws = true /\
      (pre = [] \/ exists l c, pre = l ++ [c] /\ isspace c = true)) /\
  forallb nonspace w = true /\
  ~ (exists l c, w = l ++ [c] /\ is_punct c = true).
Proof.
  cbv zeta. rewrite preceding_word_word_before. unfold word_before.
  set (before := rstrip (slice_to text start)).
  destruct (rstrip_by_split isspace (slice_to text start)) as [ws [E Hws]].
  fold (rstrip (slice_to text start)) in E. fold before in E.
  destruct (trailing_token_split before) as [pre [Eb [Hn Hpre]]].
  destruct (rstrip_by_split is_punct (trailing_token before)) as [punct [Et Hp]].
  repeat split.
  - exists pre, punct, ws. repeat split; try assumption.
    rewrite E, Eb at 1. rewrite Et at 1. now rewrite <- !app_assoc.
  - rewrite Et, forallb_app in Hn. now apply andb_true_iff in Hn.
  - intros [l [c [Ew Hc]]]. apply rstrip_by_last in Ew. congruence.
Qed.

(** X2. Where the word before [start] is a title, what expansion adds to a
    span is that word, the punctuation after it and the whitespace up to
    [start], and nothing else: [text[v:start]], for [v] the expanded start,
    is the word followed by characters of [.,;:] and then by whitespace. *)
Theorem expand_with_title_span (lower : str -> str) (text : str) (start : Z) :
  lower [] = [] ->
  0 <= start <= len text ->
  mem (lower (preceding_word text start)) TITLES = true ->
  exists punct ws,
    slice text (expand_with_title lower text start) start =
      preceding_word text start ++ punct ++ ws /\
    forallb is_punct punct = true /\ forallb isspace ws = true.
Proof.
  intros Hl H T. rewrite preceding_word_word_before in *.
  rewrite (expand_with_title_token lower text start Hl T).
  unfold adjacent_token_start, word_before.
  set (before := rstrip (slice_to text start)).
  destruct (rstrip_by_split isspace (slice_to text start)) as [ws [E Hws]].
  fold (rstrip (slice_to text start)) in E. fold before in E.
  destruct (trailing_token_split before) as [pre [Eb _]].
  destruct (rstrip_by_split is_punct (trailing_token before)) as [punct [Et Hp]].
  destruct (slice_to_prefix text start) as [rest [Ex L]].
  rewrite (clip_id _ _ H) in L.
  set (w := rstrip_by is_punct (trailing_token before)) in *.
  exists punct, ws. repeat split; try assumption.
  assert (A : len before - len (trailing_token before) = len pre).
  { rewrite Eb at 1. unfold len. rewrite length_app. lia. }
  assert (S : slice_to text start = pre ++ (w ++ punct ++ ws)).
  { rewrite E, Eb at 1. rewrite Et at 1. now rewrite <- !app_assoc. }
  assert (B : start = len pre + len (w ++ punct ++ ws)).
  { rewrite <- L, S. unfold len. rewrite length_app. lia. }
  rewrite A, Ex, S, B at 1. rewrite <- app_assoc. apply slice_middle.
Qed.

Lemma expand_with_title_span_witness :
  exists punct ws,
    slice (lit "Dr met Dr. Who") 7 11 = lit "Dr" ++ punct ++ ws /\
    forallb is_punct punct = true /\ forallb isspace ws = true.
Proof.
  assert (H : 0 <= 11 <= len (lit "Dr met Dr. Who"))
    by (vm_compute; split; discriminate).
  exact (expand_with_title_span ascii_lower (lit "Dr met Dr. Who") 11
           eq_refl H eq_refl).
Defined.

(** X3. What [preceding_word] and [expand_with_title] return for a [start]
    within the text depends on the text before [start] only: text added
    after the end of the text changes neither. *)
Theorem heuristics_ignore_later_text (lower : str -> str) (text more : str) (start : Z) :
  0 <= start <= len text ->
  preceding_word (text ++ more) start = preceding_word text start /\
  expand_with_title lower (text ++ more) start = expand_with_title lower text start.
Proof.
  intros H. unfold expand_with_title, preceding_word.
  rewrite (slice_to_app text more start H). split; reflexivity.
Qed.

Lemma heuristics_ignore_later_text_witness :
  preceding_word (lit "Sir Ian" ++ lit " left") 4 = preceding_word (lit "Sir Ian") 4 /\
  expand_with_title ascii_lower (lit "Sir Ian" ++ lit " left") 4 =
  expand_with_title ascii_lower (lit "Sir Ian") 4.
Proof.
  assert (H : 0 <= 4 <= len (lit "Sir Ian")) by (vm_compute; split; discriminate).
  exact (heuristics_ignore_later_text ascii_lower (lit "Sir Ian") (lit " left") 4 H).
Defined.

(** X4. [has_possessive] is true exactly where the entity text ends with
    ['s] or [’s], or ends with one of them and a single line feed, or the
    text from [end_] on begins with one of them. A marker elsewhere in the
    entity text, or one followed by other whitespace, does not count. *)
Theorem has_possessive_exact (ent_text text : str) (end_ : Z) :
  has_possessive ent_text text end_ = true <->
  possessive_text ent_text \/ followed_by_possessive text end_.
Proof.
  rewrite has_possessive_iff, search_possessive_text. reflexivity.
Qed.

(** X5. The whole decision of [is_likely_person]: true exactly for the label
    [PERSON], or, for another label and an entity text that is not blank,
    where the word before the entity is a title, or where the possessive is
    found and the label is none of [ORG], [GPE], [FAC], [NORP], [EVENT]. *)
Theorem is_likely_person_exact (lower : str -> str) (e : Entity) (text : str) :
  is_likely_person lower e text = true <->
  label_ e = PERSON \/
  (label_ e <> PERSON /\ strip (text_ e) <> [] /\
   (mem (lower (preceding_word text (start_char e))) TITLES = true \/
    ((possessive_text (text_ e) \/ followed_by_possessive text (end_char e)) /\
     ~ In (label_ e) NON_PERSON_LABELS))).
Proof.
  rewrite is_likely_person_iff, search_possessive_text,
    preceding_word_word_before. reflexivity.
Qed.

(** X6. An entity labelled [ORG], [GPE], [FAC], [NORP] or [EVENT] is taken
    for a person only through a title: it is accepted exactly where its
    text is not blank and the word before it is a title, whatever
    possessive there is. *)
Theorem non_person_label_needs_title (lower : str -> str) (e : Entity) (text : str) :
  In (label_ e) NON_PERSON_LABELS ->
  (is_likely_person lower e text = true <->
   strip (text_ e) <> [] /\
   mem (lower (preceding_word text (start_char e))) TITLES = true).
Proof.
  intros L. rewrite is_likely_person_iff, preceding_word_word_before.
  assert (NP : label_ e <> PERSON).
  { intros E. rewrite E in L. vm_compute in L.
    repeat (destruct L as [L | L]; [discriminate|]). exact L. }
  split.
  - intros [H | [_ [S [T | [_ N]]]]]; [contradiction | now split | contradiction].
  - intros [S T]. right. repeat split; auto.
Qed.

Lemma non_person_label_needs_title_witness :
  is_likely_person ascii_lower
    (mkEntity (lit "Acme's") (lit "ORG") 4 10) (lit "The Acme's plant") = true <->
  strip (lit "Acme's") <> [] /\
  mem (ascii_lower (preceding_word (lit "The Acme's plant") 4)) TITLES = true.
Proof.
  exact (non_person_label_needs_title ascii_lower
    (mkEntity (lit "Acme's") (lit "ORG") 4 10) (lit "The Acme's plant")
    (or_introl eq_refl)).
Defined.

(** ** Further properties of the handler *)

(** X7. For a text that is not blank the handler calls the recognizer
    exactly once, with the text as it was received, and answers with what
    the loop builds from the entities of that call. *)
Theorem recognizer_called_once (lower : str -> str) (nlp : str -> list Entity) (text : str) :
  forallb isspace text = false ->
  invocations nlp (extract_names lower text) = [text] /\
  respond_with nlp (extract_names lower text) = aggregate lower text (nlp text).
Proof.
  intros H. rewrite respond_extract_names. unfold extract_names.
  destruct (strip text) eqn:S.
  - apply strip_blank in S. congruence.
  - split; reflexivity.
Qed.

Lemma recognizer_called_once_witness :
  invocations sample_nlp (extract_names ascii_lower (lit "Prince Philip died."))
  = [lit "Prince Philip died."].
Proof.
  exact (proj1 (recognizer_called_once ascii_lower sample_nlp
                  (lit "Prince Philip died.") eq_refl)).
Defined.

(** X8. The response holds the kept mentions and nothing else: a position
    stands under a name in the response exactly where an entity the loop
    keeps has that name and that position. *)
Theorem response_holds_kept (lower : str -> str) (nlp : str -> list Entity)
  (text : str) (k : str) (p : Position) :
  (exists r, In r (respond_with nlp (extract_names lower text)) /\
             name r = k /\ In p (positions r)) <->
  In (k, p) (kept lower nlp text).
Proof.
  rewrite respond_records. split.
  - intros [r [Hr [<- Hp]]]. apply in_map_iff in Hr.
    destruct Hr as [k' [<- _]]. simpl in *. now apply occurrences_In.
  - intros H. exists (mkPersonRecord k (occurrences k (kept lower nlp text))).
    simpl. repeat split.
    + apply in_map_iff. exists k. split; [reflexivity|].
      apply first_seen_In, in_map_iff. now exists (k, p).
    + now apply occurrences_In.
Qed.

(** X9. No mention is lost and none is recorded twice: the positions of all
    records of the response are as many as the entities the loop keeps. *)
Theorem positions_count (lower : str -> str) (nlp : str -> list Entity) (text : str) :
  count_positions (respond_with nlp (extract_names lower text)) =
  List.length (kept lower nlp text).
Proof.
  rewrite respond_records. unfold count_positions. rewrite map_map. simpl.
  apply total_occurrences.
Qed.

(** X10. Every record of the response has at least one position. *)
Theorem positions_not_empty (lower : str -> str) (nlp : str -> list Entity) (text : str) :
  Forall (fun r => positions r <> [])
    (respond_with nlp (extract_names lower text)).
Proof.
  rewrite respond_records. apply Forall_forall. intros r Hr.
  apply in_map_iff in Hr. destruct Hr as [k [<- Hk]]. simpl.
  apply first_seen_In, in_map_iff in Hk. destruct Hk as [[nm p] [E Hm]].
  simpl in E. subst nm. apply occurrences_In in Hm.
  intros N. rewrite N in Hm. contradiction.
Qed.

(** X11. Entities that come later in the recognizer's sequence leave what
    the earlier ones built in place: the names built from a sequence begin
    the names built from any longer one, and a record built from the
    sequence is found, under the same name, with the same positions first,
    among the records built from the longer one. *)
Theorem aggregate_extends (lower : str -> str) (text : str) (e1 e2 : list Entity) :
  (exists rest,
      List.map name (aggregate lower text (e1 ++ e2)) =
      List.map name (aggregate lower text e1) ++ rest) /\
  Forall (fun r1 =>
            exists r2 more,
              In r2 (aggregate lower text (e1 ++ e2)) /\
              name r2 = name r1 /\ positions r2 = positions r1 ++ more)
    (aggregate lower text e1).
Proof.
  rewrite !aggregate_grouped, mentions_app.
  set (m1 := mentions lower text e1). set (m2 := mentions lower text e2).
  assert (N : forall ms K,
             List.map name (List.map (fun k => mkPersonRecord k (occurrences k ms)) K) = K).
  { intros ms K. rewrite map_map. simpl. apply map_id. }
  split.
  - rewrite !N, map_app. apply first_seen_extends.
  - apply Forall_forall. intros r1 Hr. apply in_map_iff in Hr.
    destruct Hr as [k [<- Hk]]. simpl.
    exists (mkPersonRecord k (occurrences k (m1 ++ m2))), (occurrences k m2).
    simpl. repeat split.
    + apply in_map_iff. exists k. split; [reflexivity|].
      apply first_seen_In. rewrite map_app. apply in_or_app. left.
      exact (proj1 (first_seen_In k (List.map fst m1)) Hk).
    + apply occurrences_app.
Qed.

(** X12. No name of the response begins or ends with whitespace. *)
Theorem names_trimmed (lower : str -> str) (nlp : str -> list Entity) (text : str) :
  Forall (fun r => trimmed (name r))
    (respond_with nlp (extract_names lower text)).
Proof.
  rewrite respond_records. apply Forall_forall. intros r Hr.
  apply in_map_iff in Hr. destruct Hr as [k [<- Hk]]. simpl.
  apply first_seen_In, in_map_iff in Hk. destruct Hk as [[nm p] [E Hm]].
  simpl in E. subst nm. apply kept_In in Hm. destruct Hm as [e [_ C]].
  apply candidate_Some in C. destruct C as [_ [-> _]].
  unfold strip_possessive. apply strip_trimmed.
Qed.

(** X13. A name is read from the text of each of its positions: for every
    position of a record, the name of the record is the text of that span,
    trimmed and without the possessive marker, and it stands in the span as
    it is written in the name. *)
Theorem names_from_spans (lower : str -> str) (nlp : str -> list Entity) (text : str) :
  Forall (fun r =>
    Forall (fun p =>
      name r = strip_possessive (strip (slice text (p_start p) (p_end p))) /\
      part_of (name r) (slice text (p_start p) (p_end p)))
      (positions r))
    (respond_with nlp (extract_names lower text)).
Proof.
  rewrite respond_records. apply Forall_forall. intros r Hr.
  apply in_map_iff in Hr. destruct Hr as [k [<- _]]. simpl.
  apply Forall_forall. intros p Hp.
  apply occurrences_In, kept_In in Hp. destruct Hp as [e [_ C]].
  apply candidate_Some in C. destruct C as [_ [N [_ ->]]]. simpl.
  split; [exact N|]. rewrite N.
  eapply part_of_trans; [apply strip_possessive_part, strip_trimmed|].
  apply strip_part.
Qed.

(** X14. An entity the loop keeps that has no title before it and whose
    trimmed text in the request does not end with a possessive marker is
    recorded as it stands: its name is the trimmed text of its span and its
    position is its own start and end. *)
Theorem plain_entity_recorded (lower : str -> str) (text : str) (e : Entity)
  (nm : str) (p : Position) :
  candidate lower text e = Some (nm, p) ->
  mem (lower (preceding_word text (start_char e))) TITLES = false ->
  ~ ends_with_possessive (strip (slice text (start_char e) (end_char e))) ->
  nm = strip (slice text (start_char e) (end_char e)) /\
  p = mkPosition (start_char e) (end_char e).
Proof.
  intros C T N. apply candidate_Some in C. destruct C as [_ [-> [_ ->]]].
  unfold expand_with_title. rewrite T. split; [|reflexivity].
  unfold strip_possessive.
  destruct (sub_possessive_trimmed _ (strip_trimmed (slice text (start_char e) (end_char e))))
    as [[E _] | [q [Hq E]]].
  - rewrite E. apply strip_idempotent.
  - exfalso. apply N. eexists. exists q. split; [exact E | exact Hq].
Qed.

Lemma plain_entity_recorded_witness :
  lit "Ann" = strip (slice (lit "Then Ann left") 5 8) /\
  mkPosition 5 8 = mkPosition 5 8.
Proof.
  apply (plain_entity_recorded ascii_lower (lit "Then Ann left")
           (mkEntity (lit "Ann") PERSON 5 8) (lit "Ann") (mkPosition 5 8)
           eq_refl eq_refl).
  intros [body [q [E _]]].
  apply (f_equal (@rev char)) in E. rewrite rev_app_distr in E.
  vm_compute in E. discriminate.
Defined.

(** X15. A body that is an object without the key [text] is handled as the
    empty text: the answer is the empty list of names and the recognizer is
    not called. *)
Theorem missing_text_field (lower : str -> str) (fields : list (str * Json)) :
  ~ In (lit "text") (List.map fst fields) ->
  extract_names_body lower (JObject fields) = Respond (Names []) /\
  forall nlp, invocations nlp (extract_names_body lower (JObject fields)) = [].
Proof.
  intros H.
  assert (E : extract_names_body lower (JObject fields) = Respond (Names [])).
  { unfold extract_names_body. now rewrite (dict_get_absent _ _ _ H). }
  rewrite E. split; reflexivity.
Qed.

Lemma missing_text_field_witness :
  extract_names_body ascii_lower (JObject [(lit "lang", JString (lit "en"))])
  = Respond (Names []).
Proof.
  refine (proj1 (missing_text_field ascii_lower
                   [(lit "lang", JString (lit "en"))] _)).
  simpl. intros [H | []]. discriminate.
Defined.

(** X16. The handler ends in an [AttributeError] exactly for a body that is
    no object or whose [text] is no string, and it has not called the
    recognizer then; for every other body it answers with a list of names,
    the one of [extract_names] for the text, after the same calls. *)
Theorem body_type_errors (lower : str -> str) (nlp : str -> list Entity) (data : Json) :
  (respond_with nlp (extract_names_body lower data) = AttributeError <->
   ~ exists fields text,
       data = JObject fields /\
       dict_get fields (lit "text") (JString []) = JString text) /\
  (respond_with nlp (extract_names_body lower data) = AttributeError ->
   invocations nlp (extract_names_body lower data) = []) /\
  (forall fields text,
      data = JObject fields ->
      dict_get fields (lit "text") (JString []) = JString text ->
      respond_with nlp (extract_names_body lower data) =
        Names (respond_with nlp (extract_names lower text)) /\
      invocations nlp (extract_names_body lower data) =
        invocations nlp (extract_names lower text)).
Proof.
  assert (Bad : extract_names_body lower data = Respond AttributeError ->
                (~ exists fields text,
                     data = JObject fields /\
                     dict_get fields (lit "text") (JString []) = JString text) ->
                (respond_with nlp (extract_names_body lower data) = AttributeError <->
                 ~ exists fields text,
                     data = JObject fields /\
                     dict_get fields (lit "text") (JString []) = JString text) /\
                (respond_with nlp (extract_names_body lower data) = AttributeError ->
                 invocations nlp (extract_names_body lower data) = [])).
  { intros E N. rewrite E. split; [split|]; intros _; [exact N | | ]; reflexivity. }
  destruct data as [s | fields |].
  - destruct Bad as [B1 B2]; [reflexivity | intros [f [t [E _]]]; discriminate |].
    split; [exact B1|]. split; [exact B2|]. intros f t E. discriminate.
  - destruct (dict_get fields (lit "text") (JString [])) as [text | f' |] eqn:G.
    + clear Bad.
      assert (R : respond_with nlp (extract_names_body lower (JObject fields)) =
                  Names (respond_with nlp (extract_names lower text))).
      { unfold extract_names_body. rewrite G. apply respond_with_map. }
      assert (I : invocations nlp (extract_names_body lower (JObject fields)) =
                  invocations nlp (extract_names lower text)).
      { unfold extract_names_body. rewrite G. apply invocations_map. }
      split; [|split].
      * rewrite R. split; [discriminate|].
        intros N. exfalso. apply N. now exists fields, text.
      * rewrite R. discriminate.
      * intros f t E E'. injection E as <-. rewrite G in E'.
        injection E' as <-. now split.
    + destruct Bad as [B1 B2].
      * unfold extract_names_body. now rewrite G.
      * intros [f [t [E E']]]. injection E as <-. congruence.
      * split; [exact B1|]. split; [exact B2|].
        intros f t E E'. injection E as <-. congruence.
    + destruct Bad as [B1 B2].
      * unfold extract_names_body. now rewrite G.
      * intros [f [t [E E']]]. injection E as <-. congruence.
      * split; [exact B1|]. split; [exact B2|].
        intros f t E E'. injection E as <-. congruence.
  - destruct Bad as [B1 B2]; [reflexivity | intros [f [t [E _]]]; discriminate |].
    split; [exact B1|]. split; [exact B2|]. intros f t E. discriminate.
Qed.

Lemma body_type_errors_witness :
  respond_with sample_nlp
    (extract_names_body ascii_lower
       (JObject [(lit "text", JString (lit "Prince Philip died."))])) =
  Names (respond_with sample_nlp (extract_names ascii_lower (lit "Prince Philip died."))).
Proof.
  exact (proj1 (proj2 (proj2 (body_type_errors ascii_lower sample_nlp
    (JObject [(lit "text", JString (lit "Prince Philip died."))])))
    [(lit "text", JString (lit "Prince Philip died."))]
    (lit "Prince Philip died.") eq_refl eq_refl)).
Defined.

(** X17. On a name that is trimmed, as the handler's names are when they are
    normalized, the normalization removes the marker that ends the name and
    trims what is left, and it leaves a name that does not end with a marker
    as it is. *)
Theorem strip_possessive_trimmed (s : str) :
  trimmed s ->
  (~ ends_with_possessive s /\ strip_possessive s = s) \/
  (exists body q, is_quote q = true /\ s = body ++ [q; LOWER_S] /\
                  strip_possessive s = strip body).
Proof.
  intros T. unfold strip_possessive.
  destruct (sub_possessive_trimmed s T) as [[E N] | [q [Hq E]]].
  - left. split; [assumption|]. rewrite E. now apply trimmed_strip.
  - right. now exists (sub_possessive s), q.
Qed.

Lemma strip_possessive_trimmed_witness :
  trimmed (lit "Ann's") /\
  ((~ ends_with_possessive (lit "Ann's") /\
    strip_possessive (lit "Ann's") = lit "Ann's") \/
   (exists body q, is_quote q = true /\ lit "Ann's" = body ++ [q; LOWER_S] /\
                   strip_possessive (lit "Ann's") = strip body)).
Proof.
  assert (T : trimmed (lit "Ann's")).
  { split.
    - intros c r E. vm_compute in E. injection E as <- _. reflexivity.
    - intros l c E. apply (f_equal (@rev char)) in E.
      rewrite rev_app_distr in E. vm_compute in E. injection E as <- _.
      reflexivity. }
  split; [exact T|]. exact (strip_possessive_trimmed (lit "Ann's") T).
Defined.
